(** * whisper-api: the model registry and the transcription handler of [app.py]

    A shallow embedding of [src/app.py].  The process-wide state of the
    program (the [loaded_models] dict, the log, the files on disk) is an
    explicit [World] value threaded through every function; the external
    collaborators (the whisper engine, the temporary-file layer, the upload
    object) are interfaces whose outcomes are supplied by an instance.

    Conventions.
    - An exception is a value of [PyException]: an instance of Python's
      [Exception] class, identified by its [str(e)] text.  Both handlers of the
      source are [except Exception] / [except OSError]; exceptions outside the
      [Exception] hierarchy (KeyboardInterrupt, SystemExit) are not modelled.
    - A model instance is an object reference; equality of references is
      Python's identity ([is]).
    - [time.time()] readings and the durations formatted into log lines are
      left out of the log records; every other log line of the source is a
      constructor of [LogEvent]. *)

From stdpp Require Import gmap strings list fin_maps.
From Stdlib Require Import ZArith Lia Ascii.

Local Open Scope string_scope.
Local Open Scope list_scope.
Local Open Scope nat_scope.

(** ** Values *)

(** An instance of [Exception]; [exn_str e] is [str(e)]. *)
Record PyException := Exception { exn_str : string }.

(** A loaded whisper model, as an object reference. *)
Record Model := ModelRef { model_addr : nat }.

(** [ALLOWED_MODELS] and [DEFAULT_MODEL], lines 11-12. *)
Definition ALLOWED_MODELS : gset string :=
  list_to_set ["tiny.en"; "tiny"; "base.en"; "base"; "small.en"; "small";
               "medium.en"; "medium"; "large"; "large-v1"; "large-v2"; "large-v3"].

Definition DEFAULT_MODEL : string := "base".

(** ** The log *)

Inductive Level := INFO | WARNING | ERROR.

(** One constructor per [logger] call of the source, with the values the
    f-string interpolates. *)
Inductive LogEvent :=
| UsingCached (model_name : string)                      (* line 27 *)
| AttemptLoad (model_name : string)                      (* line 31 *)
| LoadedOk (model_name : string)                         (* line 35 *)
| LoadFailed (model_name : string) (e : PyException)     (* line 39 *)
| Received (requested_model_name : string)               (* line 47 *)
| NotAllowed (requested_model_name default : string)     (* line 50 *)
| AttemptUse (actual_model_name : string)                (* line 55 *)
| NoAudioPart                                            (* line 63 *)
| EmptyFilename                                          (* line 69 *)
| TempSaved (temp_audio_path : string)                   (* line 79 *)
| TranscriptionStart (actual_model_name temp_audio_path : string) (* line 81 *)
| TranscriptionDone (temp_audio_path : string)           (* line 85 *)
| TranscriptionError (e : PyException)                   (* line 93 *)
| RemovedTemp (temp_audio_path : string)                 (* line 100 *)
| RemoveError (temp_audio_path : string) (e : PyException). (* line 102 *)

Definition LogRecord : Type := Level * LogEvent.

(** ** Process state *)

Record World := mkWorld {
  loaded_models : gmap string Model;  (* the module-level dict, line 17 *)
  load_calls : list string;           (* arguments of the calls of whisper.load_model so far *)
  log : list LogRecord;               (* emitted records, oldest first *)
  fs : gset string                    (* paths that exist on disk *)
}.

(** The state at import time: [loaded_models = {}], nothing logged. *)
Definition initial_world (disk : gset string) : World :=
  mkWorld ∅ [] [] disk.

Definition logger (lvl : Level) (ev : LogEvent) (w : World) : World :=
  mkWorld (loaded_models w) (load_calls w) (log w ++ [(lvl, ev)]) (fs w).

Definition store_model (model_name : string) (m : Model) (w : World) : World :=
  mkWorld (<[model_name := m]> (loaded_models w)) (load_calls w) (log w) (fs w).

Definition record_load_call (model_name : string) (w : World) : World :=
  mkWorld (loaded_models w) (load_calls w ++ [model_name]) (log w) (fs w).

Definition set_fs (disk : gset string) (w : World) : World :=
  mkWorld (loaded_models w) (load_calls w) (log w) disk.

(** ** External collaborators *)

(** The whisper package.  [whisper_load_model name n] is the outcome of the
    call [whisper.load_model(name)] made when [n] calls of it were made before
    in this process: the engine may fail once and succeed later.
    [model_transcribe m path] is the outcome of [m.transcribe(path)], reduced
    to the ["text"] entry of the result. *)
Class Whisper := {
  whisper_load_model : string → nat → PyException + Model;
  model_transcribe : Model → string → PyException + string
}.

(** ** The registry: [load_whisper_model], lines 20-40 *)

Section Registry.
Context `{Whisper}.

(** [whisper.load_model(model_name)], line 33, with the call recorded. *)
Definition call_load_model (model_name : string) (w : World)
  : (PyException + Model) * World :=
  (whisper_load_model model_name (length (load_calls w)),
   record_load_call model_name w).

(** The body of [with model_lock:] run without interruption.  The result is
    the Python return value: [Some m] for an instance, [None] for [None]. *)
Definition load_whisper_model (model_name : string) (w : World)
  : option Model * World :=
  match loaded_models w !! model_name with
  | Some m => (Some m, logger INFO (UsingCached model_name) w)
  | None =>
      let w := logger INFO (AttemptLoad model_name) w in
      match call_load_model model_name w with
      | (inr model_instance, w) =>
          let w := logger INFO (LoadedOk model_name) w in
          let w := store_model model_name model_instance w in
          (Some model_instance, w)
      | (inl e, w) =>
          let w := logger ERROR (LoadFailed model_name e) w in
          (None, w)
      end
  end.

End Registry.

(** ** The request and the response *)

(** An uploaded part: werkzeug's [FileStorage], with the name the client sent
    and the bytes of the part. *)
Record FileStorage := mkFileStorage {
  filename : string;
  stream : list Byte.byte
}.

(** The parts of a multipart request the handler reads: [request.form] and
    [request.files], keyed by field name. *)
Record Request := mkRequest {
  form : gmap string string;
  files : gmap string FileStorage
}.

(** What the view function returns: the JSON object given to [jsonify] and
    the status code (200 when the source returns the body alone). *)
Record Response := mkResponse {
  status : nat;
  body : gmap string string
}.

(** The file layer under the handler.
    - [NamedTemporaryFile disk suffix]: [tempfile.NamedTemporaryFile(delete=False,
      suffix=suffix)] on a disk holding [disk]; the path of the file it
      created, or the exception it raised.
    - [FileStorage_save f path]: [f.save(temp_audio)], writing to the open
      temporary file at [path]; [Some e] when it raises [e].
    - [temp_audio_close path]: the close (and flush) of the temporary file
      at [path] when the [with] block of line 75 is left, normally or by an
      exception; [Some e] when it raises [e].  With [delete=False] the file
      stays on disk either way.
    - [os_remove path]: [os.remove(path)]; [Some e] when it raises the
      [OSError] [e]. *)
Class FileLayer := {
  NamedTemporaryFile : gset string → string → PyException + string;
  FileStorage_save : FileStorage → string → option PyException;
  temp_audio_close : string → option PyException;
  os_remove : string → option PyException
}.

(** *** [os.path.splitext] (posixpath: [sep = "/"], no [altsep]) *)

(** [str.rfind] for a single character, as an index from [i]; -1 when absent. *)
Fixpoint rfind_from (c : ascii) (p : string) (i : Z) : Z :=
  match p with
  | EmptyString => (-1)%Z
  | String a p' =>
      let r := rfind_from c p' (i + 1)%Z in
      if (0 <=? r)%Z then r
      else if Ascii.eqb a c then i else (-1)%Z
  end.

Definition rfind (c : ascii) (p : string) : Z := rfind_from c p 0.

(** The [while filenameIndex < dotIndex] loop of [genericpath._splitext];
    [todo] is [dotIndex - filenameIndex]. *)
Fixpoint skip_leading_dots (p : string) (filenameIndex dotIndex todo : nat)
  : string * string :=
  match todo with
  | O => (p, "")
  | S todo' =>
      match String.get filenameIndex p with
      | Some "."%char =>
          skip_leading_dots p (S filenameIndex) dotIndex todo'
      | _ =>
          (String.substring 0 dotIndex p,
           String.substring dotIndex (String.length p - dotIndex) p)
      end
  end.

Definition splitext (p : string) : string * string :=
  let sepIndex := rfind "/"%char p in
  let dotIndex := rfind "."%char p in
  if (sepIndex <? dotIndex)%Z then
    let filenameIndex := Z.to_nat (sepIndex + 1) in
    skip_leading_dots p filenameIndex (Z.to_nat dotIndex)
                      (Z.to_nat dotIndex - filenameIndex)
  else (p, "").

(** ** The handler: [transcribe_audio], lines 43-102 *)

Definition not_available_message (actual_model_name : string) : string :=
  "Whisper model '" +:+ actual_model_name +:+ "' is not available or failed to load.".

Definition internal_error_message (e : PyException) : string :=
  "An internal error occurred during transcription: " +:+ exn_str e.

(** Lines 46 and 49-53 as a value: the name the handler goes on with. *)
Definition requested_model_name (req : Request) : string :=
  default DEFAULT_MODEL (form req !! "model_name").

Definition selected_model (req : Request) : string :=
  if bool_decide (requested_model_name req ∉ ALLOWED_MODELS)
  then DEFAULT_MODEL
  else requested_model_name req.

Section Handler.
Context `{Whisper} `{FileLayer}.

(** The [try] suite, lines 74-90.  Returns the response it reaches or the
    exception that leaves it, together with the value the local
    [temp_audio_path] has at that point (it is [None] until line 77 ran).
    The [with] block of lines 75-77 closes the temporary file when it is
    left: after line 77, or on the way out of an exception of line 76; an
    exception of the close is the one that leaves the block. *)
Definition try_suite (audio_file : FileStorage) (model : Model)
    (actual_model_name : string) (w : World)
  : (PyException + Response) * option string * World :=
  let '(_, suffix) := splitext (filename audio_file) in
  match NamedTemporaryFile (fs w) (if decide (suffix = "") then ".tmp" else suffix) with
  | inl e => (inl e, None, w)
  | inr temp_audio =>
      let w := set_fs ({[temp_audio]} ∪ fs w) w in
      match FileStorage_save audio_file temp_audio with
      | Some e =>
          match temp_audio_close temp_audio with
          | Some e' => (inl e', None, w)
          | None => (inl e, None, w)
          end
      | None =>
          let temp_audio_path := temp_audio in
          match temp_audio_close temp_audio with
          | Some e' => (inl e', Some temp_audio_path, w)
          | None =>
              let w := logger INFO (TempSaved temp_audio_path) w in
              let w := logger INFO (TranscriptionStart actual_model_name temp_audio_path) w in
              match model_transcribe model temp_audio_path with
              | inl e => (inl e, Some temp_audio_path, w)
              | inr text =>
                  let w := logger INFO (TranscriptionDone temp_audio_path) w in
                  (inr (mkResponse 200 {[ "text" := text; "model_used" := actual_model_name ]}),
                   Some temp_audio_path, w)
              end
          end
      end
  end.

(** The [except Exception as e] clause, lines 92-94. *)
Definition except_clause (e : PyException) (w : World) : Response * World :=
  (mkResponse 500 {[ "error" := internal_error_message e ]},
   logger ERROR (TranscriptionError e) w).

(** The [finally] clause, lines 96-102.  A [str] is true when non-empty. *)
Definition finally_clause (temp_audio_path : option string) (w : World) : World :=
  match temp_audio_path with
  | Some path =>
      if bool_decide (path ≠ "") && bool_decide (path ∈ fs w) then
        match os_remove path with
        | None => logger INFO (RemovedTemp path) (set_fs (fs w ∖ {[path]}) w)
        | Some e => logger ERROR (RemoveError path e) w
        end
      else w
  | None => w
  end.

Definition transcribe_audio (req : Request) (w : World) : Response * World :=
  let requested_model_name := default DEFAULT_MODEL (form req !! "model_name") in
  let w := logger INFO (Received requested_model_name) w in
  let '(actual_model_name, w) :=
    if bool_decide (requested_model_name ∉ ALLOWED_MODELS)
    then (DEFAULT_MODEL, logger WARNING (NotAllowed requested_model_name DEFAULT_MODEL) w)
    else (requested_model_name, w) in
  let w := logger INFO (AttemptUse actual_model_name) w in
  let '(model, w) := load_whisper_model actual_model_name w in
  match model with
  | None =>
      (mkResponse 503 {[ "error" := not_available_message actual_model_name ]}, w)
  | Some model =>
      match files req !! "audio_file" with
      | None =>
          (mkResponse 400 {[ "error" := "No audio file part in the request" ]},
           logger WARNING NoAudioPart w)
      | Some audio_file =>
          if decide (filename audio_file = "") then
            (mkResponse 400 {[ "error" := "No selected audio file (empty filename)" ]},
             logger WARNING EmptyFilename w)
          else
            let '(outcome, temp_audio_path, w) :=
              try_suite audio_file model actual_model_name w in
            let '(response, w) :=
              match outcome with
              | inr response => (response, w)
              | inl e => except_clause e w
              end in
            (response, finally_clause temp_audio_path w)
      end
  end.

(** [health_check], lines 104-106. *)
Definition health_check (w : World) : Response * World :=
  (mkResponse 200 {[ "status" := "healthy" ]}, w).

End Handler.

(** ** Concurrent callers of the registry

    Worker threads that each call [load_whisper_model] share one [World] and
    the one [model_lock] of line 18.  A thread is at a program point of lines
    25-40; a step runs one statement.  [with model_lock:] takes the lock on
    entry, blocking while another thread holds it, and releases it when the
    [return] leaves the block. *)

Inductive Pc :=
| AtEntry                      (* before line 25 *)
| AtCheck                      (* lock taken, before line 26 *)
| AtLoad                       (* [model_name] not cached, before lines 31-33 *)
| AtStore (m : Model)          (* the engine returned [m], before lines 34-37 *)
| AtExcept (e : PyException)   (* the engine raised [e], before lines 39-40 *)
| AtExit (r : option Model)    (* return value [r] computed, lock still held *)
| Returned (r : option Model). (* the call returned [r] *)

Record Thread := mkThread {
  th_arg : string;   (* the [model_name] argument of its call *)
  th_pc : Pc
}.

Record Sys := mkSys {
  world : World;
  model_lock : option nat;   (* the thread holding the lock, if any *)
  threads : list Thread
}.

Definition at_pc (i : nat) (pc : Pc) (s : Sys) : list Thread :=
  alter (λ t, mkThread (th_arg t) pc) i (threads s).

(** The program points inside the [with] block. *)
Definition critical (pc : Pc) : bool :=
  match pc with
  | AtEntry | Returned _ => false
  | _ => true
  end.

(** The value a thread has computed for its caller, once it has one. *)
Definition result_of (pc : Pc) : option (option Model) :=
  match pc with
  | AtExit r | Returned r => Some r
  | _ => None
  end.

Section Threads.
Context `{Whisper}.

(** One step of thread [i]; [None] when it cannot move (it waits for the lock,
    it has returned, or there is no such thread). *)
Definition thread_step (i : nat) (s : Sys) : option Sys :=
  t ← threads s !! i;
  let model_name := th_arg t in
  let w := world s in
  match th_pc t with
  | AtEntry =>
      match model_lock s with
      | None => Some (mkSys w (Some i) (at_pc i AtCheck s))
      | Some _ => None
      end
  | AtCheck =>
      match loaded_models w !! model_name with
      | Some m =>
          Some (mkSys (logger INFO (UsingCached model_name) w) (model_lock s)
                      (at_pc i (AtExit (Some m)) s))
      | None => Some (mkSys w (model_lock s) (at_pc i AtLoad s))
      end
  | AtLoad =>
      let w := logger INFO (AttemptLoad model_name) w in
      match call_load_model model_name w with
      | (inr model_instance, w) =>
          Some (mkSys w (model_lock s) (at_pc i (AtStore model_instance) s))
      | (inl e, w) => Some (mkSys w (model_lock s) (at_pc i (AtExcept e) s))
      end
  | AtStore model_instance =>
      let w := logger INFO (LoadedOk model_name) w in
      let w := store_model model_name model_instance w in
      Some (mkSys w (model_lock s) (at_pc i (AtExit (Some model_instance)) s))
  | AtExcept e =>
      let w := logger ERROR (LoadFailed model_name e) w in
      Some (mkSys w (model_lock s) (at_pc i (AtExit None) s))
  | AtExit r => Some (mkSys w None (at_pc i (Returned r) s))
  | Returned _ => None
  end.

(** Run a schedule: the scheduler names a thread at each tick; naming a thread
    that cannot move leaves the system as it is. *)
Definition tick (s : Sys) (i : nat) : Sys := default s (thread_step i s).

Definition exec (sched : list nat) (s : Sys) : Sys := foldl tick s sched.

(** The ticks of a schedule at which a thread did move. *)
Fixpoint moves (sched : list nat) (s : Sys) : nat :=
  match sched with
  | [] => 0
  | i :: sched' =>
      match thread_step i s with
      | Some _ => 1 + moves sched' (tick s i)
      | None => moves sched' (tick s i)
      end
  end.

End Threads.

(** [n] threads about to call [load_whisper_model(model_name)], lock free. *)
Definition spawn (n : nat) (model_name : string) (w : World) : Sys :=
  mkSys w None (replicate n (mkThread model_name AtEntry)).

Definition all_returned (s : Sys) : Prop :=
  Forall (λ t, ∃ r, th_pc t = Returned r) (threads s).

(** Statements a thread still has to run, at most. *)
Definition steps_left (t : Thread) : nat :=
  match th_pc t with
  | AtEntry => 5
  | AtCheck => 4
  | AtLoad => 3
  | AtStore _ | AtExcept _ => 2
  | AtExit _ => 1
  | Returned _ => 0
  end.

Definition remaining (s : Sys) : nat := sum_list_with steps_left (threads s).

(** Calls that ended in the [except] clause. *)
Definition failed (t : Thread) : nat :=
  match th_pc t with
  | AtExcept _ | AtExit None | Returned None => 1
  | _ => 0
  end.

Definition failures (s : Sys) : nat := sum_list_with failed (threads s).

(** The program point of the thread that holds the lock. *)
Definition owner_pc (s : Sys) : option Pc :=
  i ← model_lock s; t ← threads s !! i; Some (th_pc t).

(** The program points only a caller that found the name missing is at. *)
Definition loading (pc : Pc) : bool :=
  match pc with
  | AtLoad | AtStore _ | AtExcept _ => true
  | _ => false
  end.

(** Engine calls for [model_name] that returned an instance: one once the
    dict has the name, or while the lock holder is about to store it. *)
Definition successes (model_name : string) (s : Sys) : nat :=
  match loaded_models (world s) !! model_name with
  | Some _ => 1
  | None =>
      match owner_pc s with
      | Some (AtStore _) => 1
      | _ => 0
      end
  end.

Section Invariant.
Context `{Whisper}.

(** What holds of every state of threads that all ask for [model_name],
    started in a world [w0] whose dict lacks it. *)
Record registry_inv (model_name : string) (w0 : World) (s : Sys) : Prop := {
  inv_args : ∀ i t, threads s !! i = Some t → th_arg t = model_name;
  inv_mutex : ∀ i t,
    threads s !! i = Some t → critical (th_pc t) = true → model_lock s = Some i;
  inv_owner : ∀ i,
    model_lock s = Some i →
    ∃ t, threads s !! i = Some t ∧ critical (th_pc t) = true;
  inv_calls :
    load_calls (world s) =
    load_calls w0 ++ replicate (failures s + successes model_name s) model_name;
  inv_failed : ∀ j,
    j < failures s →
    ∃ e, whisper_load_model model_name (length (load_calls w0) + j) = inl e;
  inv_results : ∀ i t m,
    threads s !! i = Some t → result_of (th_pc t) = Some (Some m) →
    loaded_models (world s) !! model_name = Some m;
  inv_cached : ∀ m,
    loaded_models (world s) !! model_name = Some m →
    whisper_load_model model_name (length (load_calls w0) + failures s) = inr m ∧
    failures s < length (threads s) ∧
    ∀ pc, owner_pc s = Some pc → loading pc = false;
  inv_storing : ∀ m,
    owner_pc s = Some (AtStore m) →
    whisper_load_model model_name (length (load_calls w0) + failures s) = inr m
}.

End Invariant.

(** ** Engines and file layers used in the examples *)

(** Every load succeeds with a fresh object; transcription returns a text. *)
Definition healthy_engine : Whisper :=
  {| whisper_load_model := λ _ n, inr (ModelRef n);
     model_transcribe := λ _ _, inr "hello world" |}.

(** Every load raises, naming the model it was asked for. *)
Definition failing_engine : Whisper :=
  {| whisper_load_model := λ name _, inl (Exception ("cannot load " +:+ name));
     model_transcribe := λ _ _, inl (Exception "no model") |}.

(** The first load of the process raises, later ones succeed. *)
Definition flaky_engine : Whisper :=
  {| whisper_load_model := λ _ n,
       match n with
       | O => inl (Exception "download interrupted")
       | S _ => inr (ModelRef n)
       end;
     model_transcribe := λ _ _, inr "hello world" |}.

(** Loads succeed, transcription raises. *)
Definition deaf_engine : Whisper :=
  {| whisper_load_model := λ _ n, inr (ModelRef n);
     model_transcribe := λ _ _, inl (Exception "ffmpeg failed") |}.

(** A disk on which everything works. *)
Definition good_disk : FileLayer :=
  {| NamedTemporaryFile := λ _ suffix, inr ("/tmp/tmpk3v9" +:+ suffix);
     FileStorage_save := λ _ _, None;
     temp_audio_close := λ _, None;
     os_remove := λ _, None |}.

(** A full disk: the empty temporary file is created, writing to it raises,
    and so does the flush when it is closed. *)
Definition full_disk : FileLayer :=
  {| NamedTemporaryFile := λ _ suffix, inr ("/tmp/tmpk3v9" +:+ suffix);
     FileStorage_save := λ _ _, Some (Exception "[Errno 28] No space left on device");
     temp_audio_close := λ _, Some (Exception "[Errno 28] No space left on device");
     os_remove := λ _, None |}.

(** A disk that fills up late: the upload fits the write buffer, so writing
    returns, and the flush at the close raises. *)
Definition late_full_disk : FileLayer :=
  {| NamedTemporaryFile := λ _ suffix, inr ("/tmp/tmpk3v9" +:+ suffix);
     FileStorage_save := λ _ _, None;
     temp_audio_close := λ _, Some (Exception "[Errno 28] No space left on device");
     os_remove := λ _, None |}.

(** Writing the upload raises (the client's stream breaks), the close is
    fine. *)
Definition broken_upload_disk : FileLayer :=
  {| NamedTemporaryFile := λ _ suffix, inr ("/tmp/tmpk3v9" +:+ suffix);
     FileStorage_save := λ _ _, Some (Exception "stream ended unexpectedly");
     temp_audio_close := λ _, None;
     os_remove := λ _, None |}.

(** No temporary file can be created. *)
Definition readonly_disk : FileLayer :=
  {| NamedTemporaryFile := λ _ _, inl (Exception "[Errno 30] Read-only file system");
     FileStorage_save := λ _ _, None;
     temp_audio_close := λ _, None;
     os_remove := λ _, None |}.

(** Removal of the temporary file raises. *)
Definition sticky_disk : FileLayer :=
  {| NamedTemporaryFile := λ _ suffix, inr ("/tmp/tmpk3v9" +:+ suffix);
     FileStorage_save := λ _ _, None;
     temp_audio_close := λ _, None;
     os_remove := λ _, Some (Exception "[Errno 13] Permission denied") |}.

(** An upload of 20000 bytes, more than a write buffer holds. *)
Definition clip : FileStorage :=
  mkFileStorage "clip.wav" (replicate (20 * 1000) Byte.x00).

Definition request_with (model_name : option string) (audio : option FileStorage)
  : Request :=
  mkRequest (from_option (λ n, {[ "model_name" := n ]}) ∅ model_name)
            (from_option (λ f, {[ "audio_file" := f ]}) ∅ audio).

(** ** Notions used in the statements *)

(** The names the registry was asked for, as its own log lines show them:
    every call of [load_whisper_model] logs line 27 or line 31, once. *)
Fixpoint registry_requests (l : list LogRecord) : list string :=
  match l with
  | [] => []
  | (_, UsingCached n) :: l' | (_, AttemptLoad n) :: l' => n :: registry_requests l'
  | _ :: l' => registry_requests l'
  end.

(** [hay] has [needle] as a substring. *)
Definition mentions (needle hay : string) : Prop :=
  ∃ pre post, hay = pre +:+ needle +:+ post.

Section Notions.
Context `{Whisper} `{FileLayer}.

(** The load of [model_name] attempted in [w] fails with [e] / gives [m]. *)
Definition load_raises (model_name : string) (w : World) (e : PyException) : Prop :=
  loaded_models w !! model_name = None ∧
  whisper_load_model model_name (length (load_calls w)) = inl e.

Definition load_returns (model_name : string) (w : World) (m : Model) : Prop :=
  loaded_models w !! model_name = None ∧
  whisper_load_model model_name (length (load_calls w)) = inr m.

(** Every entry of the dict is the instance a successful engine call for
    that name returned. *)
Definition cache_sound (w : World) : Prop :=
  ∀ k m, loaded_models w !! k = Some m →
    ∃ i, load_calls w !! i = Some k ∧ whisper_load_model k i = inr m.



(** The worlds a process can be in: it starts with an empty dict and then
    serves registry calls and requests, one after the other. *)
Inductive reachable : World → Prop :=
| reach_init disk : reachable (initial_world disk)
| reach_load model_name w :
    reachable w → reachable (load_whisper_model model_name w).2
| reach_request req w :
    reachable w → reachable (transcribe_audio req w).2.

(** The world when line 57 is reached: lines 47-55 only log. *)
Definition at_line_57 (req : Request) (w : World) : World :=
  let w := logger INFO (Received (requested_model_name req)) w in
  let w :=
    if bool_decide (requested_model_name req ∉ ALLOWED_MODELS)
    then logger WARNING (NotAllowed (requested_model_name req) DEFAULT_MODEL) w
    else w in
  logger INFO (AttemptUse (selected_model req)) w.

(** Lines 72-102: the [try] statement as a whole. *)
Definition try_statement (audio_file : FileStorage) (model : Model)
    (actual_model_name : string) (w : World) : Response * World :=
  let '(outcome, temp_audio_path, w) :=
    try_suite audio_file model actual_model_name w in
  let '(response, w) :=
    match outcome with
    | inr response => (response, w)
    | inl e => except_clause e w
    end in
  (response, finally_clause temp_audio_path w).

(** The suffix line 75 asks for: the extension of the upload's name, or
    [".tmp"] when it has none. *)
Definition temp_suffix (audio_file : FileStorage) : string :=
  let '(_, suffix) := splitext (filename audio_file) in
  if decide (suffix = "") then ".tmp" else suffix.

(** The return value of a failed load determines the name and the cause. *)
Definition failure_carries_cause : Prop :=
  ∃ read : option Model → option (string * PyException),
    ∀ model_name w e,
      load_raises model_name w e →
      read (load_whisper_model model_name w).1 = Some (model_name, e).

(** [n] first-time callers of [model_name], whatever the schedule, make the
    engine load exactly once. *)
Definition loads_exactly_once (n : nat) (model_name : string) (w : World) : Prop :=
  ∀ sched,
    all_returned (exec sched (spawn n model_name w)) →
    length (load_calls (world (exec sched (spawn n model_name w)))) =
    length (load_calls w) + 1.

End Notions.

(** ** Notions used in the further properties *)

(** Two worlds that differ in the log at most. *)
Definition same_state (w w' : World) : Prop :=
  loaded_models w = loaded_models w' ∧
  load_calls w = load_calls w' ∧
  fs w = fs w'.

Section MoreNotions.
Context `{Whisper} `{FileLayer}.

(** [w'] is what the process came to from [w], by registry calls and
    requests. *)
Inductive evolves (w : World) : World → Prop :=
| evolves_refl : evolves w w
| evolves_load model_name w' :
    evolves w w' → evolves w (load_whisper_model model_name w').2
| evolves_request req w' :
    evolves w w' → evolves w (transcribe_audio req w').2.

(** The worlds of a process that only serves [/transcribe] requests. *)
Inductive served : World → Prop :=
| served_init disk : served (initial_world disk)
| served_request req w : served w → served (transcribe_audio req w).2.

End MoreNotions.

(** Threads about to call [load_whisper_model], one per name of [names],
    lock free. *)
Definition start (names : list string) (w : World) : Sys :=
  mkSys w None ((λ n, mkThread n AtEntry) <$> names).

(** The lock discipline: a thread inside the [with] block is the lock
    holder, and the lock holder is inside the block. *)
Definition lock_inv (s : Sys) : Prop :=
  (∀ i t, threads s !! i = Some t → critical (th_pc t) = true →
          model_lock s = Some i) ∧
  (∀ i, model_lock s = Some i →
        ∃ t, threads s !! i = Some t ∧ critical (th_pc t) = true).

(** * Properties *)

(** ** The registry *)

Section RegistryFacts.
Context `{Whisper}.

Lemma load_whisper_model_hit model_name w m :
  loaded_models w !! model_name = Some m →
  load_whisper_model model_name w = (Some m, logger INFO (UsingCached model_name) w).
Proof. intros Hm. unfold load_whisper_model. now rewrite Hm. Qed.

Lemma load_whisper_model_loaded model_name w m :
  load_returns model_name w m →
  load_whisper_model model_name w =
    (Some m,
     store_model model_name m
       (logger INFO (LoadedOk model_name)
          (record_load_call model_name (logger INFO (AttemptLoad model_name) w)))).
Proof.
  intros [Hmiss Hok]. unfold load_whisper_model, call_load_model.
  rewrite Hmiss. cbn. now rewrite Hok.
Qed.

Lemma load_whisper_model_failed model_name w e :
  load_raises model_name w e →
  load_whisper_model model_name w =
    (None,
     logger ERROR (LoadFailed model_name e)
       (record_load_call model_name (logger INFO (AttemptLoad model_name) w))).
Proof.
  intros [Hmiss Hko]. unfold load_whisper_model, call_load_model.
  rewrite Hmiss. cbn. now rewrite Hko.
Qed.

(** The three ways a call can go. *)
Lemma load_whisper_model_cases model_name w :
  (∃ m, loaded_models w !! model_name = Some m) ∨
  (∃ m, load_returns model_name w m) ∨
  (∃ e, load_raises model_name w e).
Proof.
  unfold load_returns, load_raises.
  destruct (loaded_models w !! model_name) as [m|]; [left; eauto|right].
  destruct (whisper_load_model model_name (length (load_calls w))) as [e|m]; eauto.
Qed.

(** A call returns [None] exactly when it attempted a load that raised. *)
Lemma load_whisper_model_None model_name w :
  (load_whisper_model model_name w).1 = None ↔ ∃ e, load_raises model_name w e.
Proof.
  split.
  - intros Hr. destruct (load_whisper_model_cases model_name w) as [[m Hm]|[[m Hm]|He]].
    + now rewrite (load_whisper_model_hit _ _ _ Hm) in Hr.
    + now rewrite (load_whisper_model_loaded _ _ _ Hm) in Hr.
    + exact He.
  - intros [e He]. now rewrite (load_whisper_model_failed _ _ _ He).
Qed.

(** The log plays no part in what a call returns. *)
Lemma load_raises_logger model_name lvl ev w e :
  load_raises model_name (logger lvl ev w) e ↔ load_raises model_name w e.
Proof. reflexivity. Qed.

Lemma load_returns_logger model_name lvl ev w m :
  load_returns model_name (logger lvl ev w) m ↔ load_returns model_name w m.
Proof. reflexivity. Qed.

(** A call never removes or replaces an entry. *)
Lemma load_whisper_model_keeps model_name w k m :
  loaded_models w !! k = Some m →
  loaded_models (load_whisper_model model_name w).2 !! k = Some m.
Proof.
  intros Hk. destruct (load_whisper_model_cases model_name w) as [[m' Hm]|[[m' Hm]|[e He]]].
  - now rewrite (load_whisper_model_hit _ _ _ Hm).
  - rewrite (load_whisper_model_loaded _ _ _ Hm). cbn.
    destruct Hm as [Hmiss _]. rewrite lookup_insert_ne; [done|congruence].
  - now rewrite (load_whisper_model_failed _ _ _ He).
Qed.

(** A call only ever appends to the history of engine calls. *)
Lemma load_whisper_model_calls model_name w :
  load_calls (load_whisper_model model_name w).2 = load_calls w ∨
  load_calls (load_whisper_model model_name w).2 = load_calls w ++ [model_name].
Proof.
  destruct (load_whisper_model_cases model_name w) as [[m' Hm]|[[m' Hm]|[e He]]].
  - left. now rewrite (load_whisper_model_hit _ _ _ Hm).
  - right. now rewrite (load_whisper_model_loaded _ _ _ Hm).
  - right. now rewrite (load_whisper_model_failed _ _ _ He).
Qed.

Lemma load_whisper_model_sound model_name w :
  cache_sound w → cache_sound (load_whisper_model model_name w).2.
Proof.
  intros Hs k m.
  destruct (load_whisper_model_cases model_name w) as [[m' Hm]|[[m' Hm]|[e He]]].
  - rewrite (load_whisper_model_hit _ _ _ Hm). cbn. apply Hs.
  - rewrite (load_whisper_model_loaded _ _ _ Hm). cbn.
    destruct Hm as [Hmiss Hok].
    rewrite lookup_insert. case_decide as Hk.
    + intros [= <-]. subst k. exists (length (load_calls w)). split; [|done].
      rewrite lookup_app_r by lia. now rewrite Nat.sub_diag.
    + intros Hin. destruct (Hs _ _ Hin) as (i & Hi & Hok'). exists i. split; [|done].
      apply lookup_app_l_Some, Hi.
  - rewrite (load_whisper_model_failed _ _ _ He). cbn.
    intros Hin. destruct (Hs _ _ Hin) as (i & Hi & Hok'). exists i. split; [|done].
    apply lookup_app_l_Some, Hi.
Qed.

End RegistryFacts.

(** ** The handler *)

(** [os.path.splitext] on a few names. *)
Example splitext_wav : splitext "clip.wav" = ("clip", ".wav").
Proof. reflexivity. Qed.

Example splitext_hidden : splitext ".bashrc" = (".bashrc", "").
Proof. reflexivity. Qed.

Example splitext_dir : splitext "a.b/c" = ("a.b/c", "").
Proof. reflexivity. Qed.

Example splitext_two : splitext "x/..y.tar.gz" = ("x/..y.tar", ".gz").
Proof. reflexivity. Qed.

Lemma string_app_assoc (a b c : string) : (a +:+ b) +:+ c = a +:+ (b +:+ c).
Proof.
  induction a as [|x a IH]; [reflexivity|].
  change (String x ((a +:+ b) +:+ c) = String x (a +:+ (b +:+ c))).
  now rewrite IH.
Qed.

Lemma mentions_middle (pre needle post : string) :
  mentions needle (pre +:+ needle +:+ post).
Proof. now exists pre, post. Qed.

Lemma registry_requests_app l1 l2 :
  registry_requests (l1 ++ l2) = registry_requests l1 ++ registry_requests l2.
Proof.
  induction l1 as [|[lvl ev] l1 IH]; [reflexivity|].
  destruct ev; cbn; now rewrite ?IH.
Qed.

Lemma selected_model_allowed req : selected_model req ∈ ALLOWED_MODELS.
Proof.
  unfold selected_model. case_bool_decide as Hd.
  - vm_compute. tauto.
  - now apply dec_stable.
Qed.

Section HandlerFacts.
Context `{Whisper} `{FileLayer}.

(** Lines 46-57: the handler calls the registry with [selected_model req]
    in the world [at_line_57 req w]. *)
Lemma transcribe_audio_line_57 req w :
  transcribe_audio req w =
    match load_whisper_model (selected_model req) (at_line_57 req w) with
    | (None, w) =>
        (mkResponse 503 {[ "error" := not_available_message (selected_model req) ]}, w)
    | (Some model, w) =>
        match files req !! "audio_file" with
        | None =>
            (mkResponse 400 {[ "error" := "No audio file part in the request" ]},
             logger WARNING NoAudioPart w)
        | Some audio_file =>
            if decide (filename audio_file = "") then
              (mkResponse 400 {[ "error" := "No selected audio file (empty filename)" ]},
               logger WARNING EmptyFilename w)
            else try_statement audio_file model (selected_model req) w
        end
    end.
Proof.
  unfold transcribe_audio, at_line_57, selected_model, requested_model_name, try_statement.
  case_bool_decide; reflexivity.
Qed.

Lemma at_line_57_loaded_models req w :
  loaded_models (at_line_57 req w) = loaded_models w.
Proof. unfold at_line_57. now case_bool_decide. Qed.

Lemma at_line_57_load_calls req w :
  load_calls (at_line_57 req w) = load_calls w.
Proof. unfold at_line_57. now case_bool_decide. Qed.

Lemma at_line_57_fs req w : fs (at_line_57 req w) = fs w.
Proof. unfold at_line_57. now case_bool_decide. Qed.

Lemma at_line_57_registry_requests req w :
  registry_requests (log (at_line_57 req w)) = registry_requests (log w).
Proof.
  unfold at_line_57. case_bool_decide; cbn;
    rewrite !registry_requests_app; cbn; now rewrite ?app_nil_r.
Qed.

Lemma load_raises_at_line_57 req name w e :
  load_raises name (at_line_57 req w) e ↔ load_raises name w e.
Proof.
  unfold load_raises. now rewrite at_line_57_loaded_models, at_line_57_load_calls.
Qed.

Lemma load_returns_at_line_57 req name w m :
  load_returns name (at_line_57 req w) m ↔ load_returns name w m.
Proof.
  unfold load_returns. now rewrite at_line_57_loaded_models, at_line_57_load_calls.
Qed.

(** What the registry call of line 57 returns, read off the world in which
    the request arrived. *)
Lemma line_57_result req w :
  (load_whisper_model (selected_model req) (at_line_57 req w)).1 =
  (load_whisper_model (selected_model req) w).1.
Proof.
  destruct (load_whisper_model_cases (selected_model req) w) as [[m Hm]|[[m Hm]|[e He]]].
  - rewrite (load_whisper_model_hit _ w m Hm).
    now rewrite (load_whisper_model_hit _ (at_line_57 req w) m)
      by now rewrite at_line_57_loaded_models.
  - rewrite (load_whisper_model_loaded _ w m Hm).
    now rewrite (load_whisper_model_loaded _ (at_line_57 req w) m)
      by now apply load_returns_at_line_57.
  - rewrite (load_whisper_model_failed _ w e He).
    now rewrite (load_whisper_model_failed _ (at_line_57 req w) e)
      by now apply load_raises_at_line_57.
Qed.

(** The [try] statement leaves the dict and the engine history alone. *)
Lemma try_statement_registry audio_file model actual w :
  loaded_models (try_statement audio_file model actual w).2 = loaded_models w ∧
  load_calls (try_statement audio_file model actual w).2 = load_calls w.
Proof.
  unfold try_statement, try_suite, except_clause, finally_clause.
  destruct (splitext (filename audio_file)) as [root suffix].
  destruct (NamedTemporaryFile _ _) as [e|path]; [done|].
  destruct (FileStorage_save _ _) as [e|];
    [destruct (temp_audio_close _) as [e'|]; done|].
  destruct (temp_audio_close _) as [e'|];
    [|destruct (model_transcribe _ _) as [e|text]]; cbn;
    destruct (bool_decide (path ≠ "") && bool_decide _); try done;
    destruct (os_remove path); done.
Qed.

Lemma try_statement_log audio_file model actual w :
  registry_requests (log (try_statement audio_file model actual w).2) =
  registry_requests (log w).
Proof.
  unfold try_statement, try_suite, except_clause, finally_clause.
  destruct (splitext (filename audio_file)) as [root suffix].
  destruct (NamedTemporaryFile _ _) as [e|path];
    [cbn; rewrite registry_requests_app; cbn; now rewrite app_nil_r|].
  destruct (FileStorage_save _ _) as [e|];
    [destruct (temp_audio_close _) as [e'|];
     cbn; rewrite registry_requests_app; cbn; now rewrite app_nil_r|].
  destruct (temp_audio_close _) as [e'|];
    [|destruct (model_transcribe _ _) as [e|text]]; cbn;
    destruct (bool_decide (path ≠ "") && bool_decide _); cbn;
    try destruct (os_remove path); cbn;
    rewrite ?registry_requests_app; cbn; now rewrite ?app_nil_r.
Qed.

End HandlerFacts.

Section HandlerCases.
Context `{Whisper} `{FileLayer}.

Lemma load_whisper_model_fs model_name w :
  fs (load_whisper_model model_name w).2 = fs w.
Proof.
  destruct (load_whisper_model_cases model_name w) as [[m Hm]|[[m Hm]|[e He]]].
  - now rewrite (load_whisper_model_hit _ _ _ Hm).
  - now rewrite (load_whisper_model_loaded _ _ _ Hm).
  - now rewrite (load_whisper_model_failed _ _ _ He).
Qed.

Lemma load_whisper_model_log model_name w :
  registry_requests (log (load_whisper_model model_name w).2) =
  registry_requests (log w) ++ [model_name].
Proof.
  destruct (load_whisper_model_cases model_name w) as [[m Hm]|[[m Hm]|[e He]]].
  - rewrite (load_whisper_model_hit _ _ _ Hm). cbn. now rewrite registry_requests_app.
  - rewrite (load_whisper_model_loaded _ _ _ Hm). cbn.
    rewrite !registry_requests_app. cbn. now rewrite app_nil_r.
  - rewrite (load_whisper_model_failed _ _ _ He). cbn.
    rewrite !registry_requests_app. cbn. now rewrite app_nil_r.
Qed.

(** The model is not available: the handler answers at line 60. *)
Lemma transcribe_audio_unavailable req w :
  (load_whisper_model (selected_model req) w).1 = None →
  transcribe_audio req w =
    (mkResponse 503 {[ "error" := not_available_message (selected_model req) ]},
     (load_whisper_model (selected_model req) (at_line_57 req w)).2).
Proof.
  intros Hr. rewrite transcribe_audio_line_57.
  rewrite <- line_57_result in Hr.
  destruct (load_whisper_model _ (at_line_57 req w)) as [r w2]. cbn in Hr. now subst r.
Qed.

(** The model is available: the handler goes on to line 62. *)
Lemma transcribe_audio_available req w model :
  (load_whisper_model (selected_model req) w).1 = Some model →
  transcribe_audio req w =
    let w2 := (load_whisper_model (selected_model req) (at_line_57 req w)).2 in
    match files req !! "audio_file" with
    | None =>
        (mkResponse 400 {[ "error" := "No audio file part in the request" ]},
         logger WARNING NoAudioPart w2)
    | Some audio_file =>
        if decide (filename audio_file = "") then
          (mkResponse 400 {[ "error" := "No selected audio file (empty filename)" ]},
           logger WARNING EmptyFilename w2)
        else try_statement audio_file model (selected_model req) w2
    end.
Proof.
  intros Hr. rewrite transcribe_audio_line_57.
  rewrite <- line_57_result in Hr.
  destruct (load_whisper_model _ (at_line_57 req w)) as [r w2]. cbn in Hr. now subst r.
Qed.

(** The handler touches the dict and the engine only through its one call
    of the registry. *)
Lemma transcribe_audio_registry req w :
  let w2 := (load_whisper_model (selected_model req) (at_line_57 req w)).2 in
  loaded_models (transcribe_audio req w).2 = loaded_models w2 ∧
  load_calls (transcribe_audio req w).2 = load_calls w2 ∧
  registry_requests (log (transcribe_audio req w).2) = registry_requests (log w2).
Proof.
  cbv zeta.
  destruct (load_whisper_model (selected_model req) w).1 as [model|] eqn:Hr.
  - rewrite (transcribe_audio_available _ _ _ Hr). cbv zeta.
    set (w2 := (load_whisper_model (selected_model req) (at_line_57 req w)).2).
    destruct (files req !! "audio_file") as [audio_file|];
      [|cbn; rewrite registry_requests_app; cbn; now rewrite app_nil_r].
    case_decide; [cbn; rewrite registry_requests_app; cbn; now rewrite app_nil_r|].
    destruct (try_statement_registry audio_file model (selected_model req) w2) as [-> ->].
    now rewrite try_statement_log.
  - now rewrite (transcribe_audio_unavailable _ _ Hr).
Qed.

(** The registry call of line 57 does to the dict and to the engine history
    what the same call does in the world in which the request arrived. *)
Lemma line_57_effects req w :
  loaded_models (load_whisper_model (selected_model req) (at_line_57 req w)).2 =
    loaded_models (load_whisper_model (selected_model req) w).2 ∧
  load_calls (load_whisper_model (selected_model req) (at_line_57 req w)).2 =
    load_calls (load_whisper_model (selected_model req) w).2.
Proof.
  destruct (load_whisper_model_cases (selected_model req) w) as [[m Hm]|[[m Hm]|[e He]]].
  - rewrite (load_whisper_model_hit _ w m Hm).
    rewrite (load_whisper_model_hit _ (at_line_57 req w) m)
      by now rewrite at_line_57_loaded_models.
    cbn [snd logger loaded_models load_calls].
    now rewrite at_line_57_loaded_models, at_line_57_load_calls.
  - rewrite (load_whisper_model_loaded _ w m Hm).
    rewrite (load_whisper_model_loaded _ (at_line_57 req w) m)
      by now apply load_returns_at_line_57.
    cbn [snd logger store_model record_load_call loaded_models load_calls].
    now rewrite at_line_57_loaded_models, at_line_57_load_calls.
  - rewrite (load_whisper_model_failed _ w e He).
    rewrite (load_whisper_model_failed _ (at_line_57 req w) e)
      by now apply load_raises_at_line_57.
    cbn [snd logger record_load_call loaded_models load_calls].
    now rewrite at_line_57_loaded_models, at_line_57_load_calls.
Qed.

(** What a request does to the dict and to the engine history is what
    [load_whisper_model (selected_model req)] does to them. *)
Lemma transcribe_audio_effects req w :
  loaded_models (transcribe_audio req w).2 =
    loaded_models (load_whisper_model (selected_model req) w).2 ∧
  load_calls (transcribe_audio req w).2 =
    load_calls (load_whisper_model (selected_model req) w).2.
Proof.
  destruct (transcribe_audio_registry req w) as (-> & -> & _).
  apply line_57_effects.
Qed.

(** A model the registry returns is in the dict after the call. *)
Lemma load_whisper_model_result_cached model_name w model :
  (load_whisper_model model_name w).1 = Some model →
  loaded_models (load_whisper_model model_name w).2 !! model_name = Some model.
Proof.
  destruct (load_whisper_model_cases model_name w) as [[m Hm]|[[m Hm]|[e He]]].
  - rewrite (load_whisper_model_hit _ _ _ Hm). cbn. congruence.
  - rewrite (load_whisper_model_loaded _ _ _ Hm). cbn. intros [= <-].
    apply lookup_insert_eq.
  - now rewrite (load_whisper_model_failed _ _ _ He).
Qed.

(** The [try] statement answers 200 or 500. *)
Lemma try_statement_status audio_file model actual w :
  status (try_statement audio_file model actual w).1 = 200 ∨
  status (try_statement audio_file model actual w).1 = 500.
Proof.
  unfold try_statement, try_suite, except_clause.
  destruct (splitext (filename audio_file)) as [root suffix].
  destruct (NamedTemporaryFile _ _) as [e|path]; [now right|].
  destruct (FileStorage_save _ _) as [e|];
    [destruct (temp_audio_close _) as [e'|]; now right|].
  destruct (temp_audio_close _) as [e'|]; [now right|].
  destruct (model_transcribe _ _) as [e|text]; [now right|now left].
Qed.

(** A 200 answer of the [try] statement reports the name it was given. *)
Lemma try_statement_model_used audio_file model actual w :
  status (try_statement audio_file model actual w).1 = 200 →
  body (try_statement audio_file model actual w).1 !! "model_used" = Some actual.
Proof.
  unfold try_statement, try_suite, except_clause.
  destruct (splitext (filename audio_file)) as [root suffix].
  destruct (NamedTemporaryFile _ _) as [e|path]; [discriminate|].
  destruct (FileStorage_save _ _) as [e|];
    [destruct (temp_audio_close _) as [e'|]; discriminate|].
  destruct (temp_audio_close _) as [e'|]; [discriminate|].
  destruct (model_transcribe _ _) as [e|text]; [discriminate|].
  intros _. cbn. rewrite lookup_insert_ne by done. apply lookup_insert_eq.
Qed.

(** After a model came from the registry: either the audio part is missing
    or unnamed and the answer is 400, or the [try] statement runs with that
    model and answers 200 or 500. *)
Lemma transcribe_audio_after_load req w model :
  (load_whisper_model (selected_model req) w).1 = Some model →
  (status (transcribe_audio req w).1 = 400 ∧
   (files req !! "audio_file" = None ∨
    ∃ audio_file, files req !! "audio_file" = Some audio_file ∧
                  filename audio_file = "")) ∨
  (∃ audio_file,
     files req !! "audio_file" = Some audio_file ∧
     filename audio_file ≠ "" ∧
     transcribe_audio req w =
       try_statement audio_file model (selected_model req)
         (load_whisper_model (selected_model req) (at_line_57 req w)).2 ∧
     (status (transcribe_audio req w).1 = 200 ∨
      status (transcribe_audio req w).1 = 500)).
Proof.
  intros Hr. rewrite (transcribe_audio_available _ _ _ Hr). cbv zeta.
  destruct (files req !! "audio_file") as [audio_file|] eqn:Hfile.
  - case_decide as Hname.
    + left. split; [reflexivity|]. right. eauto.
    + right. exists audio_file. repeat split; try done.
      apply try_statement_status.
  - left. split; [reflexivity|]. now left.
Qed.

Lemma cache_sound_ext w w' :
  loaded_models w' = loaded_models w → load_calls w' = load_calls w →
  cache_sound w → cache_sound w'.
Proof. unfold cache_sound. intros -> ->. auto. Qed.

Lemma transcribe_audio_sound req w :
  cache_sound w → cache_sound (transcribe_audio req w).2.
Proof.
  intros Hs. destruct (transcribe_audio_registry req w) as (Hm & Hc & _).
  eapply cache_sound_ext; [exact Hm|exact Hc|].
  apply load_whisper_model_sound.
  eapply cache_sound_ext; [apply at_line_57_loaded_models|apply at_line_57_load_calls|done].
Qed.

(** Whatever the process has done, the dict holds successfully loaded
    instances only. *)
Lemma reachable_cache_sound w : reachable w → cache_sound w.
Proof.
  induction 1 as [disk|name w _ IH|req w _ IH].
  - intros k m Hk. cbn in Hk. now rewrite lookup_empty in Hk.
  - now apply load_whisper_model_sound.
  - now apply transcribe_audio_sound.
Qed.

End HandlerCases.

(** ** Caching *)

Section Caching.
Context `{Whisper} `{FileLayer}.





(** C1.  When a first call for a name loads the model and the load succeeds,
    that call and a second call for the same name return the same instance,
    the engine has been called once across the two calls, and the instance
    is the one the dict holds. *)
Theorem idempotent_caching model_name w m :
  load_returns model_name w m →
  let first := load_whisper_model model_name w in
  let second := load_whisper_model model_name first.2 in
  first.1 = Some m ∧ second.1 = Some m ∧
  load_calls second.2 = load_calls w ++ [model_name] ∧
  loaded_models second.2 !! model_name = Some m.
Proof.
  intros Hok. cbv zeta.
  rewrite (load_whisper_model_loaded _ _ _ Hok). cbn [fst snd].
  set (w1 := store_model _ _ _).
  assert (Hhit : loaded_models w1 !! model_name = Some m)
    by (subst w1; cbn; apply lookup_insert_eq).
  rewrite (load_whisper_model_hit _ _ _ Hhit). cbn [fst snd].
  repeat split; done.
Qed.

(** C2.  In every world the process can reach, the dict holds only
    instances that a successful engine call for that name returned; and a
    load that raises returns [None], leaves the dict as it was and so without
    an entry for the name, after one engine call, and the next call for the
    name calls the engine again. *)
Theorem failed_load_leaves_no_entry :
  (∀ w, reachable w → cache_sound w) ∧
  (∀ model_name w e,
     load_raises model_name w e →
     let first := load_whisper_model model_name w in
     first.1 = None ∧
     loaded_models first.2 = loaded_models w ∧
     loaded_models first.2 !! model_name = None ∧
     load_calls first.2 = load_calls w ++ [model_name] ∧
     load_calls (load_whisper_model model_name first.2).2 =
       load_calls w ++ [model_name; model_name]).
Proof.
  split; [apply reachable_cache_sound|].
  intros model_name w e Hko. cbv zeta.
  rewrite (load_whisper_model_failed _ _ _ Hko). cbn [fst snd].
  set (w1 := logger _ _ _).
  destruct Hko as [Hmiss Hko].
  repeat split; try done.
  destruct (load_whisper_model_cases model_name w1) as [[m Hm]|[[m Hm]|[e' He']]].
  - subst w1. cbn in Hm. congruence.
  - rewrite (load_whisper_model_loaded _ _ _ Hm). subst w1. cbn.
    now rewrite <- app_assoc.
  - rewrite (load_whisper_model_failed _ _ _ He'). subst w1. cbn.
    now rewrite <- app_assoc.
Qed.

(** C5, as the code has it.  A load that raises makes the call return the
    bare [None]; the name and the cause go to the log only, as the ERROR
    record of line 39, and the call itself returns normally. *)
Theorem load_failure_returns_none model_name w e :
  load_raises model_name w e →
  (load_whisper_model model_name w).1 = None ∧
  log (load_whisper_model model_name w).2 =
    log w ++ [(INFO, AttemptLoad model_name); (ERROR, LoadFailed model_name e)].
Proof.
  intros Hko. rewrite (load_whisper_model_failed _ _ _ Hko). cbn.
  now rewrite <- app_assoc.
Qed.

End Caching.

Lemma idempotent_caching_witness :
  load_returns (H := healthy_engine) "tiny" (initial_world ∅) (ModelRef 0) ∧
  (load_whisper_model (H := healthy_engine) "tiny" (initial_world ∅)).1
    = Some (ModelRef 0).
Proof.
  assert (Hok : load_returns (H := healthy_engine) "tiny" (initial_world ∅) (ModelRef 0))
    by (split; reflexivity).
  split; [exact Hok|].
  exact (proj1 (idempotent_caching (H := healthy_engine) "tiny" (initial_world ∅)
                  (ModelRef 0) Hok)).
Defined.

Lemma failed_load_leaves_no_entry_witness :
  cache_sound (H := failing_engine) (initial_world ∅) ∧
  loaded_models
    (load_whisper_model (H := failing_engine) "tiny" (initial_world ∅)).2 = ∅.
Proof.
  destruct (failed_load_leaves_no_entry (H := failing_engine) (H0 := good_disk))
    as [Hsound Hfail].
  split.
  - apply Hsound. apply (reach_init (H := failing_engine) (H0 := good_disk)).
  - apply (Hfail "tiny" (initial_world ∅) (Exception "cannot load tiny")).
    split; reflexivity.
Defined.

Lemma load_failure_returns_none_witness :
  (load_whisper_model (H := failing_engine) "tiny" (initial_world ∅)).1 = None.
Proof.
  apply (load_failure_returns_none (H := failing_engine) "tiny" (initial_world ∅)
           (Exception "cannot load tiny")).
  split; reflexivity.
Defined.

(** C5 as stated fails: with an engine that raises, asking for ["tiny"] and
    asking for ["base"] return the same value [None], so no reading of the
    return value gives back the name and the cause. *)
Lemma load_failure_signal_counterexample :
  (load_whisper_model (H := failing_engine) "tiny" (initial_world ∅)).1 = None ∧
  (load_whisper_model (H := failing_engine) "base" (initial_world ∅)).1 = None ∧
  ¬ failure_carries_cause (H := failing_engine).
Proof.
  split; [reflexivity|]. split; [reflexivity|].
  intros [read Hread].
  assert (Ht : read None = Some ("tiny", Exception "cannot load tiny"))
    by exact (Hread "tiny" (initial_world ∅) _ (conj eq_refl eq_refl)).
  assert (Hb : read None = Some ("base", Exception "cannot load base"))
    by exact (Hread "base" (initial_world ∅) _ (conj eq_refl eq_refl)).
  rewrite Ht in Hb. discriminate Hb.
Qed.

(** ** Responses of the handler *)

Lemma string_app_nil_r (a : string) : a +:+ "" = a.
Proof.
  induction a as [|x a IH]; [reflexivity|].
  change (String x (a +:+ "") = String x a). now rewrite IH.
Qed.

Lemma not_available_message_mentions actual :
  mentions "is not available or failed to load" (not_available_message actual) ∧
  mentions actual (not_available_message actual).
Proof.
  split.
  - exists ("Whisper model '" +:+ actual +:+ "' "), ".".
    unfold not_available_message. now rewrite !string_app_assoc.
  - now exists "Whisper model '", "' is not available or failed to load.".
Qed.

Lemma internal_error_message_mentions e :
  mentions (exn_str e) (internal_error_message e).
Proof.
  exists "An internal error occurred during transcription: ", "".
  unfold internal_error_message. now rewrite string_app_nil_r.
Qed.

Section Responses.
Context `{Whisper} `{FileLayer}.

(** C4.  The name the handler goes on with is the default when the form has
    no [model_name], the default when the supplied name is not allowed, and
    the supplied name when it is allowed; it is always an allowed name.  The
    request makes one call of the registry, with that name: its log shows
    it, the dict and the engine history after the request are those
    [load_whisper_model] leaves for that name, the answer is 503 exactly
    when that call returned [None], and the instance it returned is the one
    the [try] statement transcribes with.  A name that is not allowed is not
    rejected: a 400 answer always comes from the audio part.  A 200 response
    reports the selected name as [model_used], a 503 one names it in its
    error. *)
Theorem selected_model_is_used req w :
  (form req !! "model_name" = None → selected_model req = DEFAULT_MODEL) ∧
  (∀ x, form req !! "model_name" = Some x → x ∉ ALLOWED_MODELS →
        selected_model req = DEFAULT_MODEL) ∧
  (∀ x, form req !! "model_name" = Some x → x ∈ ALLOWED_MODELS →
        selected_model req = x) ∧
  selected_model req ∈ ALLOWED_MODELS ∧
  registry_requests (log (transcribe_audio req w).2) =
    registry_requests (log w) ++ [selected_model req] ∧
  (load_calls (transcribe_audio req w).2 = load_calls w ∨
   load_calls (transcribe_audio req w).2 = load_calls w ++ [selected_model req]) ∧
  (status (transcribe_audio req w).1 = 200 →
   body (transcribe_audio req w).1 !! "model_used" = Some (selected_model req)) ∧
  loaded_models (transcribe_audio req w).2 =
    loaded_models (load_whisper_model (selected_model req) w).2 ∧
  load_calls (transcribe_audio req w).2 =
    load_calls (load_whisper_model (selected_model req) w).2 ∧
  (status (transcribe_audio req w).1 = 503 ↔
   (load_whisper_model (selected_model req) w).1 = None) ∧
  (status (transcribe_audio req w).1 = 503 →
   body (transcribe_audio req w).1 =
     {[ "error" := not_available_message (selected_model req) ]}) ∧
  (status (transcribe_audio req w).1 = 400 →
   files req !! "audio_file" = None ∨
   ∃ audio_file, files req !! "audio_file" = Some audio_file ∧
                 filename audio_file = "") ∧
  (∀ model audio_file,
     (load_whisper_model (selected_model req) w).1 = Some model →
     files req !! "audio_file" = Some audio_file →
     filename audio_file ≠ "" →
     transcribe_audio req w =
       try_statement audio_file model (selected_model req)
         (load_whisper_model (selected_model req) (at_line_57 req w)).2).
Proof.
  split; [|split; [|split; [|split; [|split; [|split; [|split]]]]]].
  - intros Hf. unfold selected_model, requested_model_name. rewrite Hf. cbn.
    now case_bool_decide.
  - intros x Hf Hx. unfold selected_model, requested_model_name. rewrite Hf. cbn.
    now rewrite bool_decide_eq_true_2.
  - intros x Hf Hx. unfold selected_model, requested_model_name. rewrite Hf. cbn.
    rewrite bool_decide_eq_false_2; [done|]. now intros Hn.
  - apply selected_model_allowed.
  - destruct (transcribe_audio_registry req w) as (_ & _ & ->).
    now rewrite load_whisper_model_log, at_line_57_registry_requests.
  - destruct (transcribe_audio_registry req w) as (_ & -> & _).
    rewrite <- (at_line_57_load_calls req w). apply load_whisper_model_calls.
  - destruct (load_whisper_model (selected_model req) w).1 as [model|] eqn:Hr.
    + rewrite (transcribe_audio_available _ _ _ Hr). cbv zeta.
      destruct (files req !! "audio_file") as [audio_file|]; [|discriminate].
      case_decide; [discriminate|]. apply try_statement_model_used.
    + rewrite (transcribe_audio_unavailable _ _ Hr). discriminate.
  - split; [apply transcribe_audio_effects|].
    split; [apply transcribe_audio_effects|].
    destruct (load_whisper_model (selected_model req) w).1 as [model|] eqn:Hr.
    + destruct (transcribe_audio_after_load req w model Hr)
        as [[Hst Haudio]|(f & Hfile & Hname & Heq & Hst)].
      * rewrite Hst. split; [split; discriminate|]. split; [discriminate|].
        split; [done|].
        intros model' f' _ Hf Hn. destruct Haudio as [Hnone|(f & Hf' & He)].
        -- rewrite Hnone in Hf. discriminate Hf.
        -- rewrite Hf' in Hf. injection Hf as <-. now destruct Hn.
      * split; [split; [intros H503; destruct Hst as [Hst|Hst]; rewrite Hst in H503;
                        discriminate H503|discriminate]|].
        split; [intros H503; destruct Hst as [Hst|Hst]; rewrite Hst in H503;
                discriminate H503|].
        split; [intros H400; destruct Hst as [Hst|Hst]; rewrite Hst in H400;
                discriminate H400|].
        intros model' f' [= <-] Hf' _. rewrite Hfile in Hf'. injection Hf' as <-.
        exact Heq.
    + rewrite (transcribe_audio_unavailable _ _ Hr). cbn.
      split; [done|]. split; [done|]. split; [discriminate|].
      intros model f Hm. discriminate Hm.
Qed.

(** C7.  When the load of the selected model raises, the response is 503
    with a JSON object whose one field [error] says that the model, named, is
    not available or failed to load. *)
Theorem model_unavailable_is_503 req w e :
  load_raises (selected_model req) w e →
  let response := (transcribe_audio req w).1 in
  status response = 503 ∧
  body response = {[ "error" := not_available_message (selected_model req) ]} ∧
  mentions "is not available or failed to load"
           (not_available_message (selected_model req)) ∧
  mentions (selected_model req) (not_available_message (selected_model req)).
Proof.
  intros Hko. cbv zeta.
  assert (Hr : (load_whisper_model (selected_model req) w).1 = None)
    by (apply load_whisper_model_None; eauto).
  rewrite (transcribe_audio_unavailable _ _ Hr). cbn.
  repeat split; try apply not_available_message_mentions.
Qed.

(** C8.  When the registry gives a model for the selected name: a request
    without an [audio_file] part gets 400 and an [error] naming the missing
    part, and a request whose [audio_file] part has an empty filename gets
    400 and an [error] naming the empty filename. *)
Theorem missing_audio_is_400 req w model :
  (load_whisper_model (selected_model req) w).1 = Some model →
  (files req !! "audio_file" = None →
   (transcribe_audio req w).1 =
     mkResponse 400 {[ "error" := "No audio file part in the request" ]}) ∧
  (∀ audio_file,
     files req !! "audio_file" = Some audio_file → filename audio_file = "" →
     (transcribe_audio req w).1 =
       mkResponse 400 {[ "error" := "No selected audio file (empty filename)" ]}) ∧
  mentions "No audio file part" "No audio file part in the request" ∧
  mentions "empty filename" "No selected audio file (empty filename)".
Proof.
  intros Hr. rewrite (transcribe_audio_available _ _ _ Hr). cbv zeta.
  split; [|split; [|split]].
  - now intros ->.
  - intros audio_file -> Hname. now rewrite decide_True.
  - now exists "", " in the request".
  - now exists "No selected audio file (", ")".
Qed.

(** C9.  With a model from the registry and an upload with a non-empty
    filename: when creating the temporary file raises, or writing the upload
    to it raises, or closing it at the end of the [with] block raises, or
    the transcription raises, the response is 500 with a JSON object whose
    one field [error] ends with the text of the exception that left the
    [try] suite.  That exception is the one of the close when the close
    raises (whether or not the write had raised), else the one of the write,
    else the one of the transcription. *)
Theorem processing_failure_is_500 req w model audio_file e :
  (load_whisper_model (selected_model req) w).1 = Some model →
  files req !! "audio_file" = Some audio_file →
  filename audio_file ≠ "" →
  (NamedTemporaryFile (fs w) (temp_suffix audio_file) = inl e ∨
   ∃ path, NamedTemporaryFile (fs w) (temp_suffix audio_file) = inr path ∧
     (temp_audio_close path = Some e ∨
      temp_audio_close path = None ∧
      (FileStorage_save audio_file path = Some e ∨
       FileStorage_save audio_file path = None ∧
       model_transcribe model path = inl e))) →
  (transcribe_audio req w).1 =
    mkResponse 500 {[ "error" := internal_error_message e ]} ∧
  mentions (exn_str e) (internal_error_message e).
Proof.
  intros Hr Hfile Hname Hraise.
  split; [|apply internal_error_message_mentions].
  rewrite (transcribe_audio_available _ _ _ Hr). cbv zeta.
  rewrite Hfile, decide_False by done.
  unfold try_statement, try_suite, except_clause.
  rewrite load_whisper_model_fs, at_line_57_fs.
  unfold temp_suffix in Hraise.
  destruct (splitext (filename audio_file)) as [root suffix].
  destruct Hraise as [->|(path & -> & [Hclose|[Hclose [Hsave|[Hsave Htr]]]])];
    [reflexivity|..]; rewrite Hclose.
  - now destruct (FileStorage_save audio_file path).
  - now rewrite Hsave.
  - now rewrite Hsave, Htr.
Qed.

(** C10.  The model is resolved first.  When the load of the selected model
    raises, a request without an [audio_file] part, or with one whose
    filename is empty, gets 503 and not 400: the engine was called for the
    selected model, the dict is as before, and the last thing logged is the
    failed load, not a complaint about the audio part.  Whenever the
    response is 400, the registry had given a model for the selected name,
    the dict holds it, the dict and the engine history are those the
    registry call leaves, and the audio part is missing or unnamed.  And
    with a model from the registry such an audio part does get 400. *)
Theorem model_resolved_before_validation req w :
  (∀ e, load_raises (selected_model req) w e →
        (files req !! "audio_file" = None ∨
         ∃ audio_file, files req !! "audio_file" = Some audio_file ∧
                       filename audio_file = "") →
        status (transcribe_audio req w).1 = 503 ∧
        status (transcribe_audio req w).1 ≠ 400 ∧
        load_calls (transcribe_audio req w).2 =
          load_calls w ++ [selected_model req] ∧
        loaded_models (transcribe_audio req w).2 = loaded_models w ∧
        last (log (transcribe_audio req w).2) =
          Some (ERROR, LoadFailed (selected_model req) e)) ∧
  (status (transcribe_audio req w).1 = 400 →
   ∃ model,
     (load_whisper_model (selected_model req) w).1 = Some model ∧
     loaded_models (transcribe_audio req w).2 !! selected_model req = Some model ∧
     loaded_models (transcribe_audio req w).2 =
       loaded_models (load_whisper_model (selected_model req) w).2 ∧
     load_calls (transcribe_audio req w).2 =
       load_calls (load_whisper_model (selected_model req) w).2 ∧
     (files req !! "audio_file" = None ∨
      ∃ audio_file, files req !! "audio_file" = Some audio_file ∧
                    filename audio_file = "")) ∧
  (∀ model,
     (load_whisper_model (selected_model req) w).1 = Some model →
     (files req !! "audio_file" = None ∨
      ∃ audio_file, files req !! "audio_file" = Some audio_file ∧
                    filename audio_file = "") →
     status (transcribe_audio req w).1 = 400).
Proof.
  split; [|split].
  - intros e Hko _.
    assert (Hr : (load_whisper_model (selected_model req) w).1 = None)
      by (apply load_whisper_model_None; eauto).
    destruct (transcribe_audio_effects req w) as [Hm Hc].
    rewrite Hm, Hc. rewrite (transcribe_audio_unavailable _ _ Hr).
    pose proof (proj2 (load_raises_at_line_57 req _ w e) Hko) as Hko'.
    rewrite (load_whisper_model_failed _ _ _ Hko').
    rewrite (load_whisper_model_failed _ _ _ Hko). cbn.
    repeat split; [lia|]. apply last_snoc.
  - intros H400.
    destruct (load_whisper_model (selected_model req) w).1 as [model|] eqn:Hr.
    + exists model. destruct (transcribe_audio_effects req w) as [Hm Hc].
      split; [done|]. rewrite Hm, Hc.
      split; [now apply load_whisper_model_result_cached|].
      split; [done|]. split; [done|].
      destruct (transcribe_audio_after_load req w model Hr)
        as [[_ Haudio]|(f & _ & _ & _ & [Hst|Hst])]; [exact Haudio|..];
        rewrite Hst in H400; discriminate H400.
    + rewrite (transcribe_audio_unavailable _ _ Hr) in H400. discriminate H400.
  - intros model Hr Haudio.
    destruct (transcribe_audio_after_load req w model Hr)
      as [[Hst _]|(f & Hfile & Hname & _)]; [exact Hst|].
    destruct Haudio as [Hnone|(f' & Hf' & He)].
    + rewrite Hnone in Hfile. discriminate Hfile.
    + rewrite Hf' in Hfile. injection Hfile as <-. now destruct Hname.
Qed.

End Responses.

Lemma selected_model_is_used_witness :
  selected_model (request_with (Some "whisper-9000") (Some clip)) = "base" ∧
  body (transcribe_audio (H := healthy_engine) (H0 := good_disk)
          (request_with (Some "whisper-9000") (Some clip)) (initial_world ∅)).1
    !! "model_used" = Some "base".
Proof.
  destruct (selected_model_is_used (H := healthy_engine) (H0 := good_disk)
              (request_with (Some "whisper-9000") (Some clip)) (initial_world ∅))
    as (_ & Hbad & _ & _ & _ & _ & Hused & _).
  assert (Hsel : selected_model (request_with (Some "whisper-9000") (Some clip)) = "base").
  { apply (Hbad "whisper-9000"); [reflexivity|]. vm_compute. discriminate. }
  split; [exact Hsel|].
  specialize (Hused eq_refl). rewrite Hsel in Hused. exact Hused.
Defined.

Lemma model_unavailable_is_503_witness :
  status (transcribe_audio (H := failing_engine) (H0 := good_disk)
            (request_with (Some "tiny") (Some clip)) (initial_world ∅)).1 = 503.
Proof.
  apply (model_unavailable_is_503 (H := failing_engine) (H0 := good_disk)
           (request_with (Some "tiny") (Some clip)) (initial_world ∅)
           (Exception "cannot load tiny")).
  split; reflexivity.
Defined.

Lemma missing_audio_is_400_witness :
  (transcribe_audio (H := healthy_engine) (H0 := good_disk)
     (request_with (Some "tiny") None) (initial_world ∅)).1 =
    mkResponse 400 {[ "error" := "No audio file part in the request" ]} ∧
  (transcribe_audio (H := healthy_engine) (H0 := good_disk)
     (request_with (Some "tiny") (Some (mkFileStorage "" []))) (initial_world ∅)).1 =
    mkResponse 400 {[ "error" := "No selected audio file (empty filename)" ]}.
Proof.
  split.
  - apply (missing_audio_is_400 (H := healthy_engine) (H0 := good_disk)
             (request_with (Some "tiny") None) (initial_world ∅) (ModelRef 0));
      reflexivity.
  - apply (missing_audio_is_400 (H := healthy_engine) (H0 := good_disk)
             (request_with (Some "tiny") (Some (mkFileStorage "" [])))
             (initial_world ∅) (ModelRef 0) eq_refl) with (mkFileStorage "" []);
      reflexivity.
Defined.

Lemma processing_failure_is_500_witness :
  (transcribe_audio (H := deaf_engine) (H0 := good_disk)
     (request_with None (Some clip)) (initial_world ∅)).1 =
    mkResponse 500
      {[ "error" := "An internal error occurred during transcription: ffmpeg failed" ]} ∧
  (transcribe_audio (H := healthy_engine) (H0 := late_full_disk)
     (request_with None (Some clip)) (initial_world ∅)).1 =
    mkResponse 500
      {[ "error" :=
           "An internal error occurred during transcription: [Errno 28] No space left on device" ]}.
Proof.
  split.
  - apply (processing_failure_is_500 (H := deaf_engine) (H0 := good_disk)
             (request_with None (Some clip)) (initial_world ∅) (ModelRef 0) clip
             (Exception "ffmpeg failed")).
    + reflexivity.
    + reflexivity.
    + discriminate.
    + right. exists "/tmp/tmpk3v9.wav". split; [reflexivity|].
      right. split; [reflexivity|]. right. split; reflexivity.
  - apply (processing_failure_is_500 (H := healthy_engine) (H0 := late_full_disk)
             (request_with None (Some clip)) (initial_world ∅) (ModelRef 0) clip
             (Exception "[Errno 28] No space left on device")).
    + reflexivity.
    + reflexivity.
    + discriminate.
    + right. exists "/tmp/tmpk3v9.wav". split; [reflexivity|]. left. reflexivity.
Defined.

Lemma model_resolved_before_validation_witness :
  status (transcribe_audio (H := failing_engine) (H0 := good_disk)
            (request_with None None) (initial_world ∅)).1 = 503 ∧
  load_calls (transcribe_audio (H := failing_engine) (H0 := good_disk)
                (request_with None None) (initial_world ∅)).2 = ["base"] ∧
  (∃ model,
     loaded_models (transcribe_audio (H := healthy_engine) (H0 := good_disk)
                      (request_with None None) (initial_world ∅)).2
       !! "base" = Some model) ∧
  status (transcribe_audio (H := healthy_engine) (H0 := good_disk)
            (request_with None None) (initial_world ∅)).1 = 400.
Proof.
  destruct (model_resolved_before_validation (H := failing_engine) (H0 := good_disk)
              (request_with None None) (initial_world ∅)) as (Hfail & _ & _).
  destruct (Hfail (Exception "cannot load base")) as (H503 & _ & Hcalls & _ & _).
  { split; reflexivity. }
  { left. reflexivity. }
  destruct (model_resolved_before_validation (H := healthy_engine) (H0 := good_disk)
              (request_with None None) (initial_world ∅)) as (_ & Hback & Hval).
  assert (H400 : status (transcribe_audio (H := healthy_engine) (H0 := good_disk)
                           (request_with None None) (initial_world ∅)).1 = 400).
  { apply (Hval (ModelRef 0)); [reflexivity|left; reflexivity]. }
  destruct (Hback H400) as (model & _ & Hcached & _).
  split; [exact H503|]. split; [exact Hcalls|]. split; [|exact H400].
  exists model. exact Hcached.
Defined.

(** ** The temporary file *)

Section TemporaryFile.
Context `{Whisper} `{FileLayer}.

(** The response of the [try] statement is fixed before the [finally]
    clause runs. *)
Lemma try_statement_response audio_file model actual w :
  (try_statement audio_file model actual w).1 =
    match (try_suite audio_file model actual w).1.1 with
    | inr response => response
    | inl e => mkResponse 500 {[ "error" := internal_error_message e ]}
    end.
Proof.
  unfold try_statement.
  destruct (try_suite audio_file model actual w) as [[[e|response] path] w']; reflexivity.
Qed.

(** Once line 77 ran, the [finally] clause removes the file when
    [os.remove] does not raise: the disk is back to what it was, less the
    temporary path. *)
Lemma temp_file_removed_after_save audio_file model actual w path :
  NamedTemporaryFile (fs w) (temp_suffix audio_file) = inr path →
  FileStorage_save audio_file path = None →
  path ≠ "" →
  os_remove path = None →
  fs (try_statement audio_file model actual w).2 = fs w ∖ {[path]}.
Proof.
  intros Htmp Hsave Hpath Hrm.
  unfold try_statement, try_suite, except_clause, finally_clause.
  unfold temp_suffix in Htmp.
  destruct (splitext (filename audio_file)) as [root suffix].
  rewrite Htmp, Hsave.
  assert (Hin : path ∈ ({[path]} ∪ fs w : gset string))
    by (apply elem_of_union_l, elem_of_singleton; reflexivity).
  assert (Hset : (({[path]} ∪ fs w) ∖ {[path]} : gset string) = fs w ∖ {[path]}).
  { apply set_eq. intros x.
    rewrite !elem_of_difference, elem_of_union. tauto. }
  destruct (temp_audio_close path) as [e'|];
    [|destruct (model_transcribe model path) as [e|text]]; cbn;
    rewrite (bool_decide_eq_true_2 (path ≠ "")) by done;
    rewrite (bool_decide_eq_true_2 _ Hin);
    rewrite Hrm; cbn; exact Hset.
Qed.

(** When [os.remove] raises, the file stays and the error is logged; by
    [try_statement_response] the response is not affected. *)
Lemma temp_file_kept_when_remove_raises audio_file model actual w path e :
  NamedTemporaryFile (fs w) (temp_suffix audio_file) = inr path →
  FileStorage_save audio_file path = None →
  path ≠ "" →
  os_remove path = Some e →
  path ∈ fs (try_statement audio_file model actual w).2 ∧
  last (log (try_statement audio_file model actual w).2) =
    Some (ERROR, RemoveError path e).
Proof.
  intros Htmp Hsave Hpath Hrm.
  unfold try_statement, try_suite, except_clause, finally_clause.
  unfold temp_suffix in Htmp.
  destruct (splitext (filename audio_file)) as [root suffix].
  rewrite Htmp, Hsave.
  assert (Hin : path ∈ ({[path]} ∪ fs w : gset string))
    by (apply elem_of_union_l, elem_of_singleton; reflexivity).
  destruct (temp_audio_close path) as [e''|];
    [|destruct (model_transcribe model path) as [e'|text]]; cbn;
    rewrite (bool_decide_eq_true_2 (path ≠ "")) by done;
    rewrite (bool_decide_eq_true_2 _ Hin);
    rewrite Hrm; cbn; (split; [exact Hin|apply last_snoc]).
Qed.

(** When writing the upload raises, line 77 did not run: [temp_audio_path]
    is still [None] in the [finally] clause and the created file stays.  The
    exception reported is the one of the write, or the one of the close
    when that raises too. *)
Lemma temp_file_left_after_failed_save audio_file model actual w path e :
  NamedTemporaryFile (fs w) (temp_suffix audio_file) = inr path →
  FileStorage_save audio_file path = Some e →
  try_statement audio_file model actual w =
    (mkResponse 500
       {[ "error" := internal_error_message (default e (temp_audio_close path)) ]},
     logger ERROR (TranscriptionError (default e (temp_audio_close path)))
       (set_fs ({[path]} ∪ fs w) w)).
Proof.
  intros Htmp Hsave.
  unfold try_statement, try_suite, except_clause, finally_clause.
  unfold temp_suffix in Htmp.
  destruct (splitext (filename audio_file)) as [root suffix].
  rewrite Htmp, Hsave. now destruct (temp_audio_close path).
Qed.

End TemporaryFile.

(** C6, on the failing input.  A request with an upload, served on a disk
    where the temporary file can be created but writing to it raises: the
    response is 500, and the temporary file, which did not exist before the
    request, exists after it. *)
Theorem temp_file_left_when_save_raises :
  let served := (transcribe_audio (H := healthy_engine) (H0 := full_disk)
                   (request_with None (Some clip)) (initial_world ∅)) in
  NamedTemporaryFile (FileLayer := full_disk) ∅ ".wav" = inr "/tmp/tmpk3v9.wav" ∧
  status (served.1) = 500 ∧
  ("/tmp/tmpk3v9.wav" ∉ fs (initial_world ∅)) ∧
  "/tmp/tmpk3v9.wav" ∈ fs (served.2).
Proof.
  cbv zeta. split; [reflexivity|]. split; [reflexivity|]. split.
  - apply not_elem_of_empty.
  - vm_compute. reflexivity.
Qed.

(** ** Concurrent callers *)

Lemma sum_list_with_alter {A} (f : A → nat) (g : A → A) (l : list A) i x :
  l !! i = Some x →
  sum_list_with f (alter g i l) + f x = sum_list_with f l + f (g x).
Proof.
  revert i. induction l as [|y l IH]; intros [|i] Hi; try discriminate.
  - injection Hi as ->. cbn. lia.
  - cbn in *. specialize (IH i Hi). lia.
Qed.

Lemma sum_list_with_lookup_le {A} (f : A → nat) (l : list A) i x :
  l !! i = Some x → f x ≤ sum_list_with f l.
Proof.
  revert i. induction l as [|y l IH]; intros [|i] Hi; try discriminate.
  - injection Hi as ->. cbn. lia.
  - cbn in *. specialize (IH i Hi). lia.
Qed.

Lemma sum_list_with_le_length {A} (f : A → nat) (l : list A) :
  (∀ x, f x ≤ 1) → sum_list_with f l ≤ length l.
Proof.
  intros Hf. induction l as [|y l IH]; cbn; [lia|]. specialize (Hf y). lia.
Qed.

Lemma sum_list_with_lt_length {A} (f : A → nat) (l : list A) i x :
  (∀ x, f x ≤ 1) → l !! i = Some x → f x = 0 → sum_list_with f l < length l.
Proof.
  intros Hf. revert i. induction l as [|y l IH]; intros [|i] Hi Hx; try discriminate.
  - injection Hi as ->. cbn. rewrite Hx.
    pose proof (sum_list_with_le_length f l Hf). lia.
  - cbn in *. specialize (IH i Hi Hx). specialize (Hf y). lia.
Qed.

Lemma sum_list_with_all {A} (f : A → nat) (l : list A) c :
  Forall (λ x, f x = c) l → sum_list_with f l = c * length l.
Proof. induction 1 as [|x l Hx _ IH]; cbn; [lia|]. rewrite Hx, IH. lia. Qed.

Lemma failed_le_1 t : failed t ≤ 1.
Proof. unfold failed. destruct (th_pc t) as [| | | | |[]|[]]; lia. Qed.

Lemma replicate_snoc {A} n (x : A) : replicate (n + 1) x = replicate n x ++ [x].
Proof. induction n as [|n IH]; [reflexivity|]. cbn. now rewrite IH. Qed.

(** Moving thread [i] to [pc]: what the other threads and the sums see. *)
Lemma lookup_at_pc i pc s t j t' :
  threads s !! i = Some t →
  at_pc i pc s !! j = Some t' →
  (j = i ∧ t' = mkThread (th_arg t) pc) ∨ (j ≠ i ∧ threads s !! j = Some t').
Proof.
  intros Hi Hj. unfold at_pc in Hj. destruct (decide (j = i)) as [->|Hne].
  - left. rewrite list_lookup_alter_eq, Hi in Hj. cbn in Hj. split; congruence.
  - right. rewrite list_lookup_alter_ne in Hj by done. done.
Qed.

Lemma lookup_at_pc_eq i pc s t :
  threads s !! i = Some t →
  at_pc i pc s !! i = Some (mkThread (th_arg t) pc).
Proof. intros Hi. unfold at_pc. now rewrite list_lookup_alter_eq, Hi. Qed.

Lemma length_at_pc i pc s : length (at_pc i pc s) = length (threads s).
Proof. apply length_alter. Qed.

Lemma failed_at_pc i pc s t :
  threads s !! i = Some t →
  sum_list_with failed (at_pc i pc s) + failed t =
  failures s + failed (mkThread (th_arg t) pc).
Proof.
  intros Hi. unfold at_pc, failures.
  exact (sum_list_with_alter failed (λ t, mkThread (th_arg t) pc) _ _ _ Hi).
Qed.

Lemma steps_left_at_pc i pc s t :
  threads s !! i = Some t →
  sum_list_with steps_left (at_pc i pc s) + steps_left t =
  remaining s + steps_left (mkThread (th_arg t) pc).
Proof.
  intros Hi. unfold at_pc, remaining.
  exact (sum_list_with_alter steps_left (λ t, mkThread (th_arg t) pc) _ _ _ Hi).
Qed.

Lemma owner_pc_at_pc w i pc s t :
  threads s !! i = Some t →
  owner_pc (mkSys w (Some i) (at_pc i pc s)) = Some pc.
Proof.
  intros Hi. unfold owner_pc. cbn. now rewrite (lookup_at_pc_eq _ _ _ _ Hi).
Qed.

Lemma owner_pc_of_holder s i t :
  model_lock s = Some i → threads s !! i = Some t → owner_pc s = Some (th_pc t).
Proof. intros Hl Hi. unfold owner_pc. rewrite Hl. cbn. now rewrite Hi. Qed.

(** *** The invariant is kept *)

Section Steps.
Context `{Whisper}.
Variables (model_name : string) (w0 : World).

(** It holds when the threads are started. *)
Lemma registry_inv_spawn n :
  loaded_models w0 !! model_name = None →
  registry_inv model_name w0 (spawn n model_name w0).
Proof.
  intros Hmiss.
  assert (Hth : ∀ i t, threads (spawn n model_name w0) !! i = Some t →
                       t = mkThread model_name AtEntry).
  { intros i t Hi. cbn in Hi. now apply lookup_replicate in Hi as [-> _]. }
  assert (Hf : failures (spawn n model_name w0) = 0).
  { unfold failures. cbn. rewrite (sum_list_with_all failed _ 0); [lia|].
    apply Forall_replicate. reflexivity. }
  split.
  - intros i t Hi. now rewrite (Hth _ _ Hi).
  - intros i t Hi. rewrite (Hth _ _ Hi). discriminate.
  - discriminate.
  - rewrite Hf. unfold successes, owner_pc. cbn. rewrite Hmiss. cbn.
    now rewrite app_nil_r.
  - rewrite Hf. lia.
  - intros i t m Hi. rewrite (Hth _ _ Hi). discriminate.
  - cbn. intros m Hm. congruence.
  - discriminate.
Qed.

(** Line 25: taking the free lock. *)
Lemma registry_inv_enter s i t :
  registry_inv model_name w0 s →
  threads s !! i = Some t → th_pc t = AtEntry → model_lock s = None →
  registry_inv model_name w0 (mkSys (world s) (Some i) (at_pc i AtCheck s)).
Proof.
  intros Hinv Hi Hpc Hfree.
  assert (Hf : failures (mkSys (world s) (Some i) (at_pc i AtCheck s)) = failures s).
  { pose proof (failed_at_pc i AtCheck s t Hi) as Hsum.
    unfold failed in Hsum at 2 3. rewrite Hpc in Hsum. cbn in Hsum.
    unfold failures at 1. cbn. lia. }
  assert (Hown : owner_pc s = None) by (unfold owner_pc; now rewrite Hfree).
  split.
  - intros j t' Hj. destruct (lookup_at_pc _ _ _ _ _ _ Hi Hj) as [[-> ->]|[Hne Hj']].
    + cbn. eapply inv_args; eauto.
    + eapply inv_args; eauto.
  - intros j t' Hj Hcrit. destruct (lookup_at_pc _ _ _ _ _ _ Hi Hj) as [[-> ->]|[Hne Hj']].
    + reflexivity.
    + pose proof (inv_mutex _ _ _ Hinv _ _ Hj' Hcrit). congruence.
  - intros j [= <-]. eexists. split; [apply (lookup_at_pc_eq _ _ _ _ Hi)|reflexivity].
  - rewrite Hf. cbn [world]. rewrite (inv_calls _ _ _ Hinv).
    unfold successes. cbn [world]. rewrite (owner_pc_at_pc _ _ _ _ _ Hi), Hown.
    reflexivity.
  - rewrite Hf. apply (inv_failed _ _ _ Hinv).
  - intros j t' m Hj Hres. destruct (lookup_at_pc _ _ _ _ _ _ Hi Hj) as [[-> ->]|[Hne Hj']].
    + discriminate.
    + eapply (inv_results _ _ _ Hinv); eauto.
  - cbn [world]. intros m Hm. destruct (inv_cached _ _ _ Hinv m Hm) as (Hok & Hlt & _).
    rewrite Hf. cbn [threads]. rewrite length_at_pc. repeat split; try done.
    intros pc. rewrite (owner_pc_at_pc _ _ _ _ _ Hi). now intros [= <-].
  - rewrite (owner_pc_at_pc _ _ _ _ _ Hi). discriminate.
Qed.

(** Line 40 or 28/37 leaving the [with] block: the lock is released. *)
Lemma registry_inv_leave s i t r :
  registry_inv model_name w0 s →
  threads s !! i = Some t → th_pc t = AtExit r →
  registry_inv model_name w0 (mkSys (world s) None (at_pc i (Returned r) s)).
Proof.
  intros Hinv Hi Hpc.
  assert (Hlock : model_lock s = Some i)
    by (apply (inv_mutex _ _ _ Hinv _ _ Hi); now rewrite Hpc).
  assert (Hf : failures (mkSys (world s) None (at_pc i (Returned r) s)) = failures s).
  { pose proof (failed_at_pc i (Returned r) s t Hi) as Hsum.
    unfold failed in Hsum at 2 3. rewrite Hpc in Hsum. cbn in Hsum.
    unfold failures at 1. cbn. destruct r; lia. }
  assert (Hown : owner_pc s = Some (AtExit r))
    by (rewrite <- Hpc; exact (owner_pc_of_holder s i t Hlock Hi)).
  split.
  - intros j t' Hj. destruct (lookup_at_pc _ _ _ _ _ _ Hi Hj) as [[-> ->]|[Hne Hj']].
    + cbn. eapply inv_args; eauto.
    + eapply inv_args; eauto.
  - intros j t' Hj Hcrit. destruct (lookup_at_pc _ _ _ _ _ _ Hi Hj) as [[-> ->]|[Hne Hj']].
    + discriminate.
    + pose proof (inv_mutex _ _ _ Hinv _ _ Hj' Hcrit). congruence.
  - discriminate.
  - rewrite Hf. cbn [world]. rewrite (inv_calls _ _ _ Hinv).
    unfold successes. cbn [world]. rewrite Hown. reflexivity.
  - rewrite Hf. apply (inv_failed _ _ _ Hinv).
  - intros j t' m Hj Hres. destruct (lookup_at_pc _ _ _ _ _ _ Hi Hj) as [[-> ->]|[Hne Hj']].
    + apply (inv_results _ _ _ Hinv i t m Hi). now rewrite Hpc.
    + eapply (inv_results _ _ _ Hinv); eauto.
  - cbn [world]. intros m Hm. destruct (inv_cached _ _ _ Hinv m Hm) as (Hok & Hlt & _).
    rewrite Hf. cbn [threads]. rewrite length_at_pc. repeat split; try done.
  - discriminate.
Qed.

(** A statement run by the lock holder inside the [with] block. *)
Lemma registry_inv_holder s i t w' pc' :
  registry_inv model_name w0 s →
  threads s !! i = Some t → critical (th_pc t) = true → critical pc' = true →
  let s' := mkSys w' (model_lock s) (at_pc i pc' s) in
  load_calls w' =
    load_calls w0 ++ replicate (failures s' + successes model_name s') model_name →
  (∀ j, j < failures s' →
        ∃ e, whisper_load_model model_name (length (load_calls w0) + j) = inl e) →
  (∀ m, result_of pc' = Some (Some m) → loaded_models w' !! model_name = Some m) →
  (∀ m, loaded_models (world s) !! model_name = Some m →
        loaded_models w' !! model_name = Some m) →
  (∀ m, loaded_models w' !! model_name = Some m →
        whisper_load_model model_name (length (load_calls w0) + failures s') = inr m ∧
        failures s' < length (threads s) ∧ loading pc' = false) →
  (∀ m, pc' = AtStore m →
        whisper_load_model model_name (length (load_calls w0) + failures s') = inr m) →
  registry_inv model_name w0 s'.
Proof.
  intros Hinv Hi Hcrit Hcrit' s' Hcalls Hfailed Hres Hmono Hcached Hstoring.
  assert (Hlock : model_lock s = Some i) by (apply (inv_mutex _ _ _ Hinv _ _ Hi Hcrit)).
  assert (Hown' : owner_pc s' = Some pc').
  { subst s'. rewrite Hlock. apply (owner_pc_at_pc _ _ _ _ _ Hi). }
  split.
  - intros j t' Hj. destruct (lookup_at_pc _ _ _ _ _ _ Hi Hj) as [[-> ->]|[Hne Hj']].
    + cbn. eapply inv_args; eauto.
    + eapply inv_args; eauto.
  - intros j t' Hj Hc. destruct (lookup_at_pc _ _ _ _ _ _ Hi Hj) as [[-> ->]|[Hne Hj']].
    + exact Hlock.
    + apply (inv_mutex _ _ _ Hinv _ _ Hj' Hc).
  - intros j Hj. cbn in Hj. rewrite Hlock in Hj. injection Hj as <-.
    eexists. split; [apply (lookup_at_pc_eq _ _ _ _ Hi)|exact Hcrit'].
  - exact Hcalls.
  - exact Hfailed.
  - intros j t' m Hj Hr. destruct (lookup_at_pc _ _ _ _ _ _ Hi Hj) as [[-> ->]|[Hne Hj']].
    + now apply Hres.
    + apply Hmono. eapply (inv_results _ _ _ Hinv); eauto.
  - intros m Hm. destruct (Hcached m Hm) as (Hok & Hlt & Hld).
    cbn [threads s']. rewrite length_at_pc. repeat split; try done.
    intros pc. rewrite Hown'. now intros [= <-].
  - intros m. rewrite Hown'. intros [= ->]. now apply Hstoring.
Qed.

Lemma failures_move s i t w' lk pc' :
  threads s !! i = Some t →
  failures (mkSys w' lk (at_pc i pc' s)) + failed t =
  failures s + failed (mkThread (th_arg t) pc').
Proof. intros Hi. unfold failures at 1. cbn. now apply failed_at_pc. Qed.

Lemma successes_move s i t w' pc' :
  threads s !! i = Some t →
  successes model_name (mkSys w' (Some i) (at_pc i pc' s)) =
    match loaded_models w' !! model_name with
    | Some _ => 1
    | None => match pc' with AtStore _ => 1 | _ => 0 end
    end.
Proof.
  intros Hi. unfold successes. cbn [world].
  now rewrite (owner_pc_at_pc _ _ _ _ _ Hi).
Qed.

Lemma successes_holder s i t :
  model_lock s = Some i → threads s !! i = Some t →
  successes model_name s =
    match loaded_models (world s) !! model_name with
    | Some _ => 1
    | None => match th_pc t with AtStore _ => 1 | _ => 0 end
    end.
Proof.
  intros Hl Hi. unfold successes. now rewrite (owner_pc_of_holder _ _ _ Hl Hi).
Qed.

(** A thread past the check holds the lock and the name is still missing. *)
Lemma loading_not_cached s i t :
  registry_inv model_name w0 s →
  threads s !! i = Some t → loading (th_pc t) = true →
  model_lock s = Some i ∧ loaded_models (world s) !! model_name = None.
Proof.
  intros Hinv Hi Hld.
  assert (Hlock : model_lock s = Some i).
  { apply (inv_mutex _ _ _ Hinv _ _ Hi). now destruct (th_pc t). }
  split; [done|].
  destruct (loaded_models (world s) !! model_name) as [m|] eqn:Hc; [|done].
  destruct (inv_cached _ _ _ Hinv m Hc) as (_ & _ & Hno).
  specialize (Hno _ (owner_pc_of_holder _ _ _ Hlock Hi)). congruence.
Qed.

Ltac failures_after Hmove Hi Hpc w pc :=
  match type of Hi with
  | threads ?s !! _ = _ =>
      pose proof (failures_move s _ _ w (model_lock s) pc Hi) as Hmove
  end;
  unfold failed in Hmove; cbn [th_pc] in Hmove;
  rewrite Hpc in Hmove; cbn [th_pc] in Hmove.

(** Every statement a thread runs keeps the invariant. *)
Lemma thread_step_inv s i s' :
  registry_inv model_name w0 s → thread_step i s = Some s' →
  registry_inv model_name w0 s'.
Proof.
  intros Hinv Hstep. unfold thread_step in Hstep.
  destruct (threads s !! i) as [t|] eqn:Hi; [|discriminate]. cbn in Hstep.
  pose proof (inv_args _ _ _ Hinv _ _ Hi) as Harg. rewrite Harg in Hstep.
  pose proof (inv_calls _ _ _ Hinv) as Hcalls.
  pose proof (inv_failed _ _ _ Hinv) as Hfailed.
  destruct (th_pc t) as [| | |m|e|r|r] eqn:Hpc.
  - (* line 25 *)
    destruct (model_lock s) eqn:Hl; [discriminate|]. injection Hstep as <-.
    now apply (registry_inv_enter _ _ t).
  - (* line 26 *)
    assert (Hlock : model_lock s = Some i)
      by (apply (inv_mutex _ _ _ Hinv _ _ Hi); now rewrite Hpc).
    rewrite (successes_holder _ _ _ Hlock Hi), Hpc in Hcalls.
    destruct (loaded_models (world s) !! model_name) as [m|] eqn:Hc;
      injection Hstep as <-.
    + set (w' := logger _ _ _).
      failures_after Hmove Hi Hpc w' (AtExit (Some m)).
      destruct (inv_cached _ _ _ Hinv m Hc) as (Hok & Hlt & _).
      rewrite ?Nat.add_0_r in Hmove.
      apply (registry_inv_holder _ _ t); cbv zeta; rewrite ?Hmove;
        try done; try exact Hfailed; try (now rewrite Hpc).
      * rewrite Hlock, (successes_move _ _ _ _ _ Hi). subst w'. cbn. now rewrite Hc.
      * now intros m' [= <-].
      * intros m' Hm'. assert (m' = m) as -> by (subst w'; cbn in Hm'; congruence).
        done.
    + failures_after Hmove Hi Hpc (world s) AtLoad.
      rewrite ?Nat.add_0_r in Hmove.
      apply (registry_inv_holder _ _ t); cbv zeta; rewrite ?Hmove;
        try done; try exact Hfailed; try (now rewrite Hpc).
      * rewrite Hlock, (successes_move _ _ _ _ _ Hi). now rewrite Hc.
      * intros m Hm. congruence.
  - (* lines 31-33 *)
    destruct (loading_not_cached s i t Hinv Hi) as [Hlock Hc]; [now rewrite Hpc|].
    rewrite (successes_holder _ _ _ Hlock Hi), Hpc, Hc, Nat.add_0_r in Hcalls.
    unfold call_load_model in Hstep. cbn [load_calls logger] in Hstep.
    assert (Hlen : length (load_calls (world s)) = length (load_calls w0) + failures s)
      by (rewrite Hcalls, length_app, length_replicate; lia).
    rewrite Hlen in Hstep.
    destruct (whisper_load_model model_name (length (load_calls w0) + failures s))
      as [e|m] eqn:Hcall; injection Hstep as <-.
    + set (w' := record_load_call _ _).
      failures_after Hmove Hi Hpc w' (AtExcept e).
      rewrite Nat.add_0_r in Hmove.
      apply (registry_inv_holder _ _ t); cbv zeta; rewrite ?Hmove;
        try done; try exact Hfailed; try (now rewrite Hpc).
      * rewrite Hlock, (successes_move _ _ _ _ _ Hi). subst w'. cbn.
        rewrite Hc, Hcalls, Nat.add_0_r, replicate_snoc. now rewrite app_assoc.
      * intros j Hj. destruct (decide (j = failures s)) as [->|Hne]; [eauto|].
        apply Hfailed. lia.
      * subst w'. cbn. intros m Hm. congruence.
    + set (w' := record_load_call _ _).
      failures_after Hmove Hi Hpc w' (AtStore m).
      rewrite !Nat.add_0_r in Hmove.
      apply (registry_inv_holder _ _ t); cbv zeta; rewrite ?Hmove;
        try done; try exact Hfailed; try (now rewrite Hpc).
      * rewrite Hlock, (successes_move _ _ _ _ _ Hi). subst w'. cbn.
        rewrite Hc, Hcalls, replicate_snoc. now rewrite app_assoc.
      * subst w'. cbn. intros m' Hm. congruence.
      * now intros m' [= <-].
  - (* lines 34-37 *)
    destruct (loading_not_cached s i t Hinv Hi) as [Hlock Hc]; [now rewrite Hpc|].
    rewrite (successes_holder _ _ _ Hlock Hi), Hpc, Hc in Hcalls.
    injection Hstep as <-.
    set (w' := store_model _ _ _).
    failures_after Hmove Hi Hpc w' (AtExit (Some m)).
    rewrite !Nat.add_0_r in Hmove.
    assert (Hc' : loaded_models w' !! model_name = Some m)
      by (subst w'; cbn; apply lookup_insert_eq).
    assert (Hstore : whisper_load_model model_name
                       (length (load_calls w0) + failures s) = inr m).
    { apply (inv_storing _ _ _ Hinv). rewrite <- Hpc.
      exact (owner_pc_of_holder _ _ _ Hlock Hi). }
    apply (registry_inv_holder _ _ t); cbv zeta; rewrite ?Hmove;
      try done; try exact Hfailed; try (now rewrite Hpc).
    + rewrite Hlock, (successes_move _ _ _ _ _ Hi), Hc'. now subst w'.
    + now intros m' [= <-].
    + intros m' Hm'. congruence.
    + intros m' Hm'. assert (m' = m) as -> by congruence.
      repeat split; [done|].
      rewrite <- Hmove. unfold failures. cbn [threads].
      rewrite <- (length_at_pc i (AtExit (Some m)) s).
      apply (sum_list_with_lt_length failed _ i _ failed_le_1
               (lookup_at_pc_eq _ _ _ _ Hi)). reflexivity.
  - (* lines 39-40 *)
    destruct (loading_not_cached s i t Hinv Hi) as [Hlock Hc]; [now rewrite Hpc|].
    rewrite (successes_holder _ _ _ Hlock Hi), Hpc, Hc in Hcalls.
    injection Hstep as <-.
    set (w' := logger _ _ _).
    failures_after Hmove Hi Hpc w' (AtExit None).
    assert (Hf : failures (mkSys w' (model_lock s) (at_pc i (AtExit None) s))
                 = failures s) by lia.
    apply (registry_inv_holder _ _ t); cbv zeta; rewrite ?Hf;
      try done; try exact Hfailed; try (now rewrite Hpc).
    + rewrite Hlock, (successes_move _ _ _ _ _ Hi). subst w'. cbn. now rewrite Hc.
    + subst w'. cbn. intros m Hm. congruence.
  - (* leaving the block *)
    injection Hstep as <-. now apply (registry_inv_leave _ _ t).
  - discriminate.
Qed.

Lemma tick_inv s i :
  registry_inv model_name w0 s → registry_inv model_name w0 (tick s i).
Proof.
  intros Hinv. unfold tick.
  destruct (thread_step i s) as [s'|] eqn:Hstep; [|done].
  now apply (thread_step_inv s i).
Qed.

Lemma exec_inv sched s :
  registry_inv model_name w0 s → registry_inv model_name w0 (exec sched s).
Proof.
  revert s. induction sched as [|i sched IH]; intros s Hinv; [done|].
  apply IH, tick_inv, Hinv.
Qed.

End Steps.

Section Progress.
Context `{Whisper}.

Lemma thread_step_length i s s' :
  thread_step i s = Some s' → length (threads s') = length (threads s).
Proof.
  unfold thread_step. destruct (threads s !! i) as [t|]; [|discriminate]. cbn.
  destruct (th_pc t); try discriminate;
    repeat match goal with
           | |- context [match ?x with _ => _ end] => destruct x
           end;
    intros [= <-]; apply length_at_pc.
Qed.

Lemma exec_cons i sched s : exec (i :: sched) s = exec sched (tick s i).
Proof. reflexivity. Qed.

Lemma exec_length sched s : length (threads (exec sched s)) = length (threads s).
Proof.
  revert s. induction sched as [|i sched IH]; intros s; [done|].
  rewrite exec_cons, IH. unfold tick.
  destruct (thread_step i s) as [s'|] eqn:Hstep; [|done].
  now apply (thread_step_length i).
Qed.

(** Every statement a thread runs brings it closer to its return. *)
Lemma thread_step_remaining i s s' :
  thread_step i s = Some s' → remaining s' < remaining s.
Proof.
  unfold thread_step. destruct (threads s !! i) as [t|] eqn:Hi; [|discriminate]. cbn.
  pose proof (λ pc, steps_left_at_pc i pc s t Hi) as Hsum.
  unfold steps_left in Hsum at 2 3. cbn [th_pc] in Hsum.
  destruct (th_pc t); try discriminate;
    repeat match goal with
           | |- context [match ?x with _ => _ end] => destruct x
           end;
    intros [= <-]; unfold remaining at 1; cbn [threads];
    match goal with
    | |- sum_list_with _ (at_pc _ ?pc _) < _ => specialize (Hsum pc); cbn in Hsum; lia
    end.
Qed.

Lemma moves_remaining sched s :
  moves sched s + remaining (exec sched s) ≤ remaining s.
Proof.
  revert s. induction sched as [|i sched IH]; intros s; [cbn; lia|].
  rewrite exec_cons. cbn [moves]. specialize (IH (tick s i)). unfold tick in *.
  destruct (thread_step i s) as [s'|] eqn:Hstep; cbn [default from_option id] in *; [|lia].
  pose proof (thread_step_remaining _ _ _ Hstep). lia.
Qed.

Lemma remaining_spawn n model_name w : remaining (spawn n model_name w) = 5 * n.
Proof.
  unfold remaining, spawn. cbn [threads].
  rewrite (sum_list_with_all steps_left _ 5), length_replicate; [done|].
  apply Forall_replicate. reflexivity.
Qed.

(** A thread inside the [with] block can always run its next statement. *)
Lemma critical_can_step i s t :
  threads s !! i = Some t → critical (th_pc t) = true → is_Some (thread_step i s).
Proof.
  intros Hi Hcrit. unfold thread_step. rewrite Hi. cbn.
  destruct (th_pc t); try discriminate; unfold call_load_model;
    repeat case_match; eexists; reflexivity.
Qed.

Lemma returned_or_not (l : list Thread) :
  Forall (λ t, ∃ r, th_pc t = Returned r) l ∨
  ∃ i t, l !! i = Some t ∧ ∀ r, th_pc t ≠ Returned r.
Proof.
  induction l as [|t l IH]; [left; apply Forall_nil_2|].
  destruct IH as [IH|(i & t' & Hi & Hn)].
  - destruct (th_pc t) as [| | | | | |r] eqn:Hpc;
      try (right; exists 0, t; split; [done|]; intros r'; rewrite Hpc; discriminate).
    left. constructor; eauto.
  - right. exists (S i), t'. eauto.
Qed.

(** No deadlock: while some call has not returned, some thread can move. *)
Lemma registry_progress model_name w0 s :
  registry_inv model_name w0 s →
  all_returned s ∨ ∃ i, is_Some (thread_step i s).
Proof.
  intros Hinv. destruct (model_lock s) as [i|] eqn:Hl.
  - right. exists i. destruct (inv_owner _ _ _ Hinv i Hl) as (t & Hi & Hcrit).
    now apply (critical_can_step i s t).
  - destruct (returned_or_not (threads s)) as [Hall|(i & t & Hi & Hn)]; [now left|].
    right. exists i. destruct (th_pc t) as [| | | | | |r] eqn:Hpc.
    + unfold thread_step. rewrite Hi. cbn. rewrite Hpc, Hl. eexists; reflexivity.
    + pose proof (inv_mutex _ _ _ Hinv i t Hi) as Hm. rewrite Hpc in Hm.
      specialize (Hm eq_refl). congruence.
    + pose proof (inv_mutex _ _ _ Hinv i t Hi) as Hm. rewrite Hpc in Hm.
      specialize (Hm eq_refl). congruence.
    + pose proof (inv_mutex _ _ _ Hinv i t Hi) as Hm. rewrite Hpc in Hm.
      specialize (Hm eq_refl). congruence.
    + pose proof (inv_mutex _ _ _ Hinv i t Hi) as Hm. rewrite Hpc in Hm.
      specialize (Hm eq_refl). congruence.
    + pose proof (inv_mutex _ _ _ Hinv i t Hi) as Hm. rewrite Hpc in Hm.
      specialize (Hm eq_refl). congruence.
    + now destruct (Hn r).
Qed.

End Progress.

Section Outcome.
Context `{Whisper}.

Lemma at_pc_at_pc i pc pc' w lk s :
  at_pc i pc' (mkSys w lk (at_pc i pc s)) = at_pc i pc' s.
Proof. unfold at_pc. cbn. now rewrite list_alter_alter_eq. Qed.

(** A thread left alone runs its call as [load_whisper_model] does: same
    return value, same world, lock free again. *)
Lemma solo_call s i t :
  model_lock s = None → threads s !! i = Some t → th_pc t = AtEntry →
  exec [i; i; i; i; i] s =
    mkSys (load_whisper_model (th_arg t) (world s)).2 None
          (at_pc i (Returned (load_whisper_model (th_arg t) (world s)).1) s).
Proof.
  intros Hl Hi Hpc.
  pose proof (λ pc, lookup_at_pc_eq i pc s t Hi) as Hat.
  assert (Hdone : ∀ w r, tick (mkSys w None (at_pc i (Returned r) s)) i =
                         mkSys w None (at_pc i (Returned r) s)).
  { intros w r. unfold tick, thread_step. cbn [threads]. now rewrite Hat. }
  unfold exec, load_whisper_model. cbn [foldl].
  unfold tick at 5, thread_step. rewrite Hi. cbn. rewrite Hpc, Hl. cbn.
  unfold tick at 4. unfold thread_step at 1. cbn [threads]. rewrite Hat. cbn.
  destruct (loaded_models (world s) !! th_arg t) as [m|] eqn:Hc; cbn;
    rewrite ?at_pc_at_pc.
  - unfold tick at 3. unfold thread_step at 1. cbn [threads]. rewrite Hat. cbn.
    rewrite ?at_pc_at_pc. now rewrite !Hdone.
  - unfold tick at 3. unfold thread_step at 1. cbn [threads]. rewrite Hat. cbn.
    destruct (whisper_load_model _ _) as [e|m]; cbn; rewrite ?at_pc_at_pc.
    + unfold tick at 2. unfold thread_step at 1. cbn [threads]. rewrite Hat. cbn.
      rewrite ?at_pc_at_pc.
      unfold tick. unfold thread_step at 1. cbn [threads]. rewrite Hat. cbn.
      now rewrite ?at_pc_at_pc.
    + unfold tick at 2. unfold thread_step at 1. cbn [threads]. rewrite Hat. cbn.
      rewrite ?at_pc_at_pc.
      unfold tick. unfold thread_step at 1. cbn [threads]. rewrite Hat. cbn.
      now rewrite ?at_pc_at_pc.
Qed.

End Outcome.

Section FirstRequests.
Context `{Whisper}.

Lemma all_returned_unlocked model_name w0 s :
  registry_inv model_name w0 s → all_returned s →
  model_lock s = None ∧ owner_pc s = None.
Proof.
  intros Hinv Hall.
  assert (Hl : model_lock s = None).
  { destruct (model_lock s) as [i|] eqn:Hl; [|done].
    destruct (inv_owner _ _ _ Hinv i Hl) as (t & Hi & Hcrit).
    destruct (proj1 (Forall_lookup _ _) Hall i t Hi) as [r Hr].
    rewrite Hr in Hcrit. discriminate. }
  split; [done|]. unfold owner_pc. now rewrite Hl.
Qed.

(** Once the name is missing from the dict, nobody has an instance. *)
Lemma all_failed_when_missing model_name w0 s :
  registry_inv model_name w0 s → all_returned s →
  loaded_models (world s) !! model_name = None →
  Forall (λ t, th_pc t = Returned None) (threads s) ∧
  failures s = length (threads s).
Proof.
  intros Hinv Hall Hc.
  assert (Hnone : Forall (λ t, th_pc t = Returned None) (threads s)).
  { apply Forall_lookup. intros i t Hi.
    destruct (proj1 (Forall_lookup _ _) Hall i t Hi) as [[m|] Hr]; [|done].
    pose proof (inv_results _ _ _ Hinv i t m Hi) as Hm. rewrite Hr in Hm.
    specialize (Hm eq_refl). congruence. }
  split; [done|].
  unfold failures. rewrite (sum_list_with_all failed _ 1); [lia|].
  eapply Forall_impl; [exact Hnone|]. intros t Ht. unfold failed. now rewrite Ht.
Qed.

(** C3, as the code has it.  [n] threads call [load_whisper_model] for a
    name the dict lacks, under any schedule.  At every moment a thread
    inside the [with] block (check, load, store) holds the lock; some thread
    can move until all calls have returned, and that takes at most [5 * n]
    statements.  When all have returned: if the first engine call gives an
    instance, the engine was called once and every caller has that instance,
    which the dict holds; if every one of the first [n] engine calls raises,
    the engine was called [n] times, every caller has [None] and the dict
    still lacks the name. *)
Theorem concurrent_first_requests n model_name w sched :
  loaded_models w !! model_name = None →
  let s := exec sched (spawn n model_name w) in
  length (threads s) = n ∧
  (∀ i t, threads s !! i = Some t → critical (th_pc t) = true →
          model_lock s = Some i) ∧
  (all_returned s ∨ ∃ i, is_Some (thread_step i s)) ∧
  moves sched (spawn n model_name w) + remaining s ≤ 5 * n ∧
  (all_returned s →
   (∀ m, 0 < n →
      whisper_load_model model_name (length (load_calls w)) = inr m →
      load_calls (world s) = load_calls w ++ [model_name] ∧
      Forall (λ t, th_pc t = Returned (Some m)) (threads s) ∧
      loaded_models (world s) !! model_name = Some m) ∧
   ((∀ j, j < n →
       ∃ e, whisper_load_model model_name (length (load_calls w) + j) = inl e) →
    load_calls (world s) = load_calls w ++ replicate n model_name ∧
    Forall (λ t, th_pc t = Returned None) (threads s) ∧
    loaded_models (world s) !! model_name = None)).
Proof.
  intros Hmiss s.
  assert (Hinv : registry_inv model_name w s)
    by (apply exec_inv, registry_inv_spawn, Hmiss).
  assert (Hlen : length (threads s) = n)
    by (subst s; rewrite exec_length; apply length_replicate).
  split; [exact Hlen|]. split; [apply (inv_mutex _ _ _ Hinv)|].
  split; [apply (registry_progress _ _ _ Hinv)|].
  split.
  { rewrite <- (remaining_spawn n model_name w). apply moves_remaining. }
  intros Hall.
  destruct (all_returned_unlocked _ _ _ Hinv Hall) as [Hl Hown].
  pose proof (inv_calls _ _ _ Hinv) as Hcalls. unfold successes in Hcalls.
  rewrite Hown in Hcalls.
  split.
  - intros m Hn Hok.
    assert (Hf : failures s = 0).
    { destruct (failures s) as [|k] eqn:Hf; [done|].
      destruct (inv_failed _ _ _ Hinv 0) as [e He]; [lia|].
      rewrite Nat.add_0_r in He. congruence. }
    destruct (loaded_models (world s) !! model_name) as [m'|] eqn:Hc.
    + destruct (inv_cached _ _ _ Hinv m' Hc) as (Hok' & _ & _).
      rewrite Hf, Nat.add_0_r in Hok'. assert (m' = m) as -> by congruence.
      rewrite Hf in Hcalls. split; [exact Hcalls|]. split; [|done].
      apply Forall_lookup. intros i t Hi.
      destruct (proj1 (Forall_lookup _ _) Hall i t Hi) as [[m'|] Hr].
      * pose proof (inv_results _ _ _ Hinv i t m' Hi) as Hm. rewrite Hr in Hm.
        specialize (Hm eq_refl). congruence.
      * pose proof (sum_list_with_lookup_le failed _ _ _ Hi) as Hle.
        unfold failed in Hle at 1. rewrite Hr in Hle. fold (failures s) in Hle. lia.
    + destruct (all_failed_when_missing _ _ _ Hinv Hall Hc) as [_ Hfn]. lia.
  - intros Hko.
    destruct (loaded_models (world s) !! model_name) as [m'|] eqn:Hc.
    + destruct (inv_cached _ _ _ Hinv m' Hc) as (Hok' & Hlt & _).
      destruct (Hko (failures s)) as [e He]; [lia|]. congruence.
    + destruct (all_failed_when_missing _ _ _ Hinv Hall Hc) as [Hnone Hfn].
      rewrite Hfn, Hlen, Nat.add_0_r in Hcalls. done.
Qed.

End FirstRequests.

Lemma concurrent_first_requests_witness :
  all_returned (exec (H := healthy_engine) [0; 1; 0; 0; 1; 0; 0; 1; 1; 1]
                  (spawn 2 "base" (initial_world ∅))) ∧
  load_calls (world (exec (H := healthy_engine) [0; 1; 0; 0; 1; 0; 0; 1; 1; 1]
                       (spawn 2 "base" (initial_world ∅)))) = ["base"].
Proof.
  assert (Hall : all_returned (exec (H := healthy_engine) [0; 1; 0; 0; 1; 0; 0; 1; 1; 1]
                                 (spawn 2 "base" (initial_world ∅)))).
  { unfold all_returned. vm_compute.
    repeat (constructor; [eexists; reflexivity|]). constructor. }
  split; [exact Hall|].
  destruct (concurrent_first_requests (H := healthy_engine) 2 "base" (initial_world ∅)
              [0; 1; 0; 0; 1; 0; 0; 1; 1; 1] eq_refl) as (_ & _ & _ & _ & Hfinal).
  destruct (Hfinal Hall) as [Hone _].
  apply (Hone (ModelRef 0)); [lia|reflexivity].
Defined.

(** C3 as stated fails: with an engine whose loads raise, two first-time
    callers run one after the other each call the engine, so it is called
    twice for the one name. *)
Lemma exactly_one_load_counterexample :
  ¬ loads_exactly_once (H := failing_engine) 2 "base" (initial_world ∅).
Proof.
  intros Honce.
  specialize (Honce [0; 0; 0; 0; 0; 1; 1; 1; 1; 1]).
  assert (Hall : all_returned (exec (H := failing_engine) [0; 0; 0; 0; 0; 1; 1; 1; 1; 1]
                                 (spawn 2 "base" (initial_world ∅)))).
  { unfold all_returned. vm_compute.
    repeat (constructor; [eexists; reflexivity|]). constructor. }
  specialize (Honce Hall). vm_compute in Honce. discriminate Honce.
Qed.

(** ** Worked runs *)

(** A failed load is retried by the next call, which may succeed. *)
Example retry_after_failure :
  let first := load_whisper_model (H := flaky_engine) "base" (initial_world ∅) in
  let second := load_whisper_model (H := flaky_engine) "base" (first.2) in
  first.1 = None ∧ second.1 = Some (ModelRef 1) ∧
  load_calls (second.2) = ["base"; "base"].
Proof. repeat split; reflexivity. Qed.

(** Two threads with an engine that raises once: the first caller has
    [None], the second one, whose own attempt succeeds, has the instance. *)
Example one_fails_one_loads :
  threads (exec (H := flaky_engine) [0; 1; 0; 0; 0; 0; 1; 1; 1; 1; 1]
             (spawn 2 "base" (initial_world ∅))) =
    [mkThread "base" (Returned None); mkThread "base" (Returned (Some (ModelRef 1)))].
Proof. reflexivity. Qed.

(** No temporary file can be created: 500, and the disk is untouched. *)
Example readonly_disk_is_500 :
  let served := (transcribe_audio (H := healthy_engine) (H0 := readonly_disk)
                   (request_with (Some "tiny") (Some clip)) (initial_world ∅)) in
  status (served.1) = 500 ∧
  body (served.1) !! "error" =
    Some "An internal error occurred during transcription: [Errno 30] Read-only file system" ∧
  fs (served.2) = ∅.
Proof. cbv zeta. repeat split; vm_compute; reflexivity. Qed.

(** [os.remove] raises after a good transcription: the response is still
    the 200 one, the error is logged, the file stays. *)
Example removal_failure_keeps_response :
  let served := (transcribe_audio (H := healthy_engine) (H0 := sticky_disk)
                   (request_with (Some "tiny") (Some clip)) (initial_world ∅)) in
  served.1 = mkResponse 200 {[ "text" := "hello world"; "model_used" := "tiny" ]} ∧
  last (log (served.2)) =
    Some (ERROR, RemoveError "/tmp/tmpk3v9.wav" (Exception "[Errno 13] Permission denied")) ∧
  "/tmp/tmpk3v9.wav" ∈ fs (served.2).
Proof. cbv zeta. repeat split; vm_compute; reflexivity. Qed.

(** A good request on a good disk: 200, and the temporary file is gone. *)
Example good_request_cleans_up :
  let served := (transcribe_audio (H := healthy_engine) (H0 := good_disk)
                   (request_with (Some "tiny") (Some clip)) (initial_world ∅)) in
  served.1 = mkResponse 200 {[ "text" := "hello world"; "model_used" := "tiny" ]} ∧
  fs (served.2) = ∅.
Proof. cbv zeta. repeat split; vm_compute; reflexivity. Qed.

(** [/health] answers 200 whatever the registry holds. *)
Example health_check_ok w :
  health_check w = (mkResponse 200 {[ "status" := "healthy" ]}, w).
Proof. reflexivity. Qed.

(** * Further properties *)

(** ** The handler's answers *)

Section MoreHandler.
Context `{Whisper} `{FileLayer}.

Lemma line_57_fs req w :
  fs (load_whisper_model (selected_model req) (at_line_57 req w)).2 = fs w.
Proof. now rewrite load_whisper_model_fs, at_line_57_fs. Qed.

Lemma try_suite_success audio_file model actual w path text :
  NamedTemporaryFile (fs w) (temp_suffix audio_file) = inr path →
  FileStorage_save audio_file path = None →
  temp_audio_close path = None →
  model_transcribe model path = inr text →
  (try_statement audio_file model actual w).1 =
    mkResponse 200 {[ "text" := text; "model_used" := actual ]}.
Proof.
  intros Htmp Hsave Hclose Htr. rewrite try_statement_response.
  unfold try_suite. unfold temp_suffix in Htmp.
  destruct (splitext (filename audio_file)) as [root suffix].
  now rewrite Htmp, Hsave, Hclose, Htr.
Qed.

(** X1.  With a model from the registry, an upload with a non-empty
    filename, and the temporary file created, written, closed and
    transcribed without an exception, the response is 200 with the
    transcribed text and the selected model's name. *)
Theorem successful_transcription_is_200 req w model audio_file path text :
  (load_whisper_model (selected_model req) w).1 = Some model →
  files req !! "audio_file" = Some audio_file →
  filename audio_file ≠ "" →
  NamedTemporaryFile (fs w) (temp_suffix audio_file) = inr path →
  FileStorage_save audio_file path = None →
  temp_audio_close path = None →
  model_transcribe model path = inr text →
  (transcribe_audio req w).1 =
    mkResponse 200 {[ "text" := text; "model_used" := selected_model req ]}.
Proof.
  intros Hr Hfile Hname Htmp Hsave Hclose Htr.
  rewrite (transcribe_audio_available _ _ _ Hr). cbv zeta.
  rewrite Hfile, decide_False by done.
  apply (try_suite_success _ _ _ _ path); [|done..].
  now rewrite line_57_fs.
Qed.

(** X2.  Once the upload was written to the temporary file, the file is gone
    when the request ends, whether the transcription succeeded or raised,
    provided [os.remove] does not raise; no other path of the disk is
    touched. *)
Theorem temp_file_removed_on_request req w model audio_file path :
  (load_whisper_model (selected_model req) w).1 = Some model →
  files req !! "audio_file" = Some audio_file →
  filename audio_file ≠ "" →
  NamedTemporaryFile (fs w) (temp_suffix audio_file) = inr path →
  FileStorage_save audio_file path = None →
  path ≠ "" →
  os_remove path = None →
  fs (transcribe_audio req w).2 = fs w ∖ {[path]} ∧
  path ∉ fs (transcribe_audio req w).2.
Proof.
  intros Hr Hfile Hname Htmp Hsave Hpath Hrm.
  assert (Hfs : fs (transcribe_audio req w).2 = fs w ∖ {[path]}).
  { rewrite (transcribe_audio_available _ _ _ Hr). cbv zeta.
    rewrite Hfile, decide_False by done.
    rewrite (temp_file_removed_after_save _ _ _ _ path); try done.
    - now rewrite line_57_fs.
    - now rewrite line_57_fs. }
  split; [exact Hfs|]. rewrite Hfs.
  rewrite elem_of_difference, elem_of_singleton. tauto.
Qed.

(** X4.  A request answered 503 or 400 leaves the disk as it was: no
    temporary file is created before the model is there and the upload has
    a name. *)
Theorem no_file_without_valid_upload req w :
  status (transcribe_audio req w).1 = 503 ∨
  status (transcribe_audio req w).1 = 400 →
  fs (transcribe_audio req w).2 = fs w.
Proof.
  destruct (load_whisper_model (selected_model req) w).1 as [model|] eqn:Hr.
  - rewrite (transcribe_audio_available _ _ _ Hr). cbv zeta.
    destruct (files req !! "audio_file") as [audio_file|];
      [|intros _; cbn; apply line_57_fs].
    case_decide; [intros _; cbn; apply line_57_fs|].
    rewrite try_statement_response.
    unfold try_suite.
    destruct (splitext (filename audio_file)) as [root suffix].
    destruct (NamedTemporaryFile _ _) as [e|path]; [cbn; intros [|]; discriminate|].
    destruct (FileStorage_save _ _) as [e|];
      [destruct (temp_audio_close _) as [e'|]; cbn; intros [|]; discriminate|].
    destruct (temp_audio_close _) as [e'|]; [cbn; intros [|]; discriminate|].
    destruct (model_transcribe _ _) as [e|text]; cbn; intros [|]; discriminate.
  - rewrite (transcribe_audio_unavailable _ _ Hr). intros _. apply line_57_fs.
Qed.

(** X5.  Every response is either 200 with exactly the fields [text] and
    [model_used], the latter being the selected model, or 400, 500 or 503
    with exactly the field [error]. *)
Theorem response_shapes req w :
  let response := (transcribe_audio req w).1 in
  (status response = 200 ∧
   ∃ text, body response =
             {[ "text" := text; "model_used" := selected_model req ]}) ∨
  ((status response = 400 ∨ status response = 500 ∨ status response = 503) ∧
   ∃ message, body response = {[ "error" := message ]}).
Proof.
  cbv zeta.
  destruct (load_whisper_model (selected_model req) w).1 as [model|] eqn:Hr.
  - rewrite (transcribe_audio_available _ _ _ Hr). cbv zeta.
    destruct (files req !! "audio_file") as [audio_file|]; [|right; cbn; eauto].
    case_decide; [right; cbn; eauto|].
    rewrite try_statement_response. unfold try_suite.
    destruct (splitext (filename audio_file)) as [root suffix].
    destruct (NamedTemporaryFile _ _) as [e|path]; [right; cbn; eauto|].
    destruct (FileStorage_save _ _) as [e|];
      [destruct (temp_audio_close _) as [e'|]; right; cbn; eauto|].
    destruct (temp_audio_close _) as [e'|]; [right; cbn; eauto|].
    destruct (model_transcribe _ _) as [e|text]; [right|left]; cbn; eauto.
  - rewrite (transcribe_audio_unavailable _ _ Hr). right. cbn. eauto.
Qed.

End MoreHandler.

(** X3.  The response does not depend on what [os.remove] does: two file
    layers that create, write and close temporary files alike give the same
    response. *)
Theorem response_independent_of_removal
    (E : Whisper) (F1 F2 : FileLayer) req w :
  (∀ disk suffix,
     NamedTemporaryFile (FileLayer := F1) disk suffix =
     NamedTemporaryFile (FileLayer := F2) disk suffix) →
  (∀ f path,
     FileStorage_save (FileLayer := F1) f path =
     FileStorage_save (FileLayer := F2) f path) →
  (∀ path,
     temp_audio_close (FileLayer := F1) path =
     temp_audio_close (FileLayer := F2) path) →
  (transcribe_audio (H0 := F1) req w).1 = (transcribe_audio (H0 := F2) req w).1.
Proof.
  intros Htmp Hsave Hclose.
  destruct (load_whisper_model (selected_model req) w).1 as [model|] eqn:Hr.
  - rewrite (transcribe_audio_available (H0 := F1) _ _ _ Hr).
    rewrite (transcribe_audio_available (H0 := F2) _ _ _ Hr). cbv zeta.
    destruct (files req !! "audio_file") as [audio_file|]; [|reflexivity].
    case_decide; [reflexivity|].
    rewrite !try_statement_response. unfold try_suite.
    destruct (splitext (filename audio_file)) as [root suffix].
    rewrite Htmp. destruct (NamedTemporaryFile _ _) as [e|path]; [reflexivity|].
    rewrite Hsave, Hclose. destruct (FileStorage_save _ _) as [e|];
      [destruct (temp_audio_close _) as [e'|]; reflexivity|].
    destruct (temp_audio_close _) as [e'|]; [reflexivity|].
    destruct (model_transcribe _ _) as [e|text]; reflexivity.
  - rewrite (transcribe_audio_unavailable (H0 := F1) _ _ Hr).
    now rewrite (transcribe_audio_unavailable (H0 := F2) _ _ Hr).
Qed.

Section Lifetime.
Context `{Whisper} `{FileLayer}.

Lemma transcribe_audio_keeps req w k m :
  loaded_models w !! k = Some m →
  loaded_models (transcribe_audio req w).2 !! k = Some m.
Proof.
  intros Hk. destruct (transcribe_audio_registry req w) as (-> & _ & _).
  apply load_whisper_model_keeps. now rewrite at_line_57_loaded_models.
Qed.

Lemma load_whisper_model_dom model_name w k :
  is_Some (loaded_models (load_whisper_model model_name w).2 !! k) →
  is_Some (loaded_models w !! k) ∨ k = model_name.
Proof.
  destruct (load_whisper_model_cases model_name w) as [[m Hm]|[[m Hm]|[e He]]].
  - rewrite (load_whisper_model_hit _ _ _ Hm). now left.
  - rewrite (load_whisper_model_loaded _ _ _ Hm). cbn.
    rewrite lookup_insert. case_decide; [now right|now left].
  - rewrite (load_whisper_model_failed _ _ _ He). now left.
Qed.

Lemma served_allowed w k :
  served w → is_Some (loaded_models w !! k) → k ∈ ALLOWED_MODELS.
Proof.
  induction 1 as [disk|req w _ IH].
  - cbn. rewrite lookup_empty. now intros [m Hm].
  - destruct (transcribe_audio_registry req w) as (-> & _ & _).
    intros Hk. apply load_whisper_model_dom in Hk as [Hk| ->].
    + apply IH. now rewrite at_line_57_loaded_models in Hk.
    + apply selected_model_allowed.
Qed.

(** X7.  In a process that only serves requests, every name in the dict is
    an allowed one, so the dict never holds more than 12 models. *)
Theorem cache_within_allow_list w :
  served w →
  dom (loaded_models w) ⊆ ALLOWED_MODELS ∧ size (loaded_models w) ≤ 12.
Proof.
  intros Hs.
  assert (Hsub : dom (loaded_models w) ⊆ ALLOWED_MODELS).
  { intros k Hk. apply elem_of_dom in Hk. now apply (served_allowed w). }
  split; [exact Hsub|].
  rewrite <- size_dom. apply subseteq_size in Hsub.
  etrans; [exact Hsub|]. vm_compute. lia.
Qed.

Lemma not_503_cached req w :
  status (transcribe_audio req w).1 ≠ 503 →
  ∃ m, loaded_models (transcribe_audio req w).2 !! selected_model req = Some m.
Proof.
  intros Hst. destruct (transcribe_audio_registry req w) as (-> & _ & _).
  destruct (load_whisper_model_cases (selected_model req) (at_line_57 req w))
    as [[m Hm]|[[m Hm]|[e He]]].
  - exists m. rewrite (load_whisper_model_hit _ _ _ Hm). exact Hm.
  - exists m. rewrite (load_whisper_model_loaded _ _ _ Hm). cbn.
    apply lookup_insert_eq.
  - exfalso. apply Hst.
    rewrite (transcribe_audio_unavailable req w); [reflexivity|].
    apply load_whisper_model_None. exists e. now apply load_raises_at_line_57 in He.
Qed.

Lemma available_not_503 req w model :
  (load_whisper_model (selected_model req) w).1 = Some model →
  status (transcribe_audio req w).1 ≠ 503.
Proof.
  intros Hr. rewrite (transcribe_audio_available _ _ _ Hr). cbv zeta.
  destruct (files req !! "audio_file") as [audio_file|]; [|discriminate].
  case_decide; [discriminate|].
  rewrite try_statement_response. unfold try_suite.
  destruct (splitext (filename audio_file)) as [root suffix].
  destruct (NamedTemporaryFile _ _) as [e|path]; [discriminate|].
  destruct (FileStorage_save _ _) as [e|];
    [destruct (temp_audio_close _) as [e'|]; discriminate|].
  destruct (temp_audio_close _) as [e'|]; [discriminate|].
  destruct (model_transcribe _ _) as [e|text]; discriminate.
Qed.

Lemma warm_request req w m :
  loaded_models w !! selected_model req = Some m →
  status (transcribe_audio req w).1 ≠ 503 ∧
  load_calls (transcribe_audio req w).2 = load_calls w ∧
  loaded_models (transcribe_audio req w).2 = loaded_models w.
Proof.
  intros Hm. split.
  - apply (available_not_503 req w m). now rewrite (load_whisper_model_hit _ _ _ Hm).
  - assert (Hm' : loaded_models (at_line_57 req w) !! selected_model req = Some m)
      by now rewrite at_line_57_loaded_models.
    destruct (transcribe_audio_registry req w) as (-> & -> & _).
    rewrite (load_whisper_model_hit _ _ _ Hm'). cbn [snd logger load_calls loaded_models].
    now rewrite at_line_57_loaded_models, at_line_57_load_calls.
Qed.

Lemma evolves_keeps w w' k m :
  evolves w w' →
  loaded_models w !! k = Some m →
  loaded_models w' !! k = Some m.
Proof.
  intros Hev Hk. induction Hev as [|name w' _ IH|req w' _ IH]; [done|..].
  - apply load_whisper_model_keeps, IH.
  - apply transcribe_audio_keeps, IH.
Qed.

Lemma evolves_load_calls w w' :
  evolves w w' → load_calls w `prefix_of` load_calls w'.
Proof.
  induction 1 as [|name w' _ IH|req w' _ IH]; [done|..].
  - etrans; [exact IH|].
    destruct (load_whisper_model_calls name w') as [-> | ->]; [done|].
    now apply prefix_app_r.
  - etrans; [exact IH|].
    destruct (transcribe_audio_registry req w') as (_ & -> & _).
    rewrite <- (at_line_57_load_calls req w') at 1.
    destruct (load_whisper_model_calls (selected_model req) (at_line_57 req w'))
      as [-> | ->]; [done|].
    now apply prefix_app_r.
Qed.

(** X8.  Once a request got past the loading of its model (any answer but
    503), every later request that selects the same model is not answered
    503, makes no engine call and leaves the dict as it is. *)
Theorem loaded_model_stays_available req1 req2 w w2 :
  status (transcribe_audio req1 w).1 ≠ 503 →
  evolves (transcribe_audio req1 w).2 w2 →
  selected_model req2 = selected_model req1 →
  status (transcribe_audio req2 w2).1 ≠ 503 ∧
  load_calls (transcribe_audio req2 w2).2 = load_calls w2 ∧
  loaded_models (transcribe_audio req2 w2).2 = loaded_models w2.
Proof.
  intros Hst Hev Hsel.
  destruct (not_503_cached req1 w Hst) as [m Hm].
  apply (warm_request req2 w2 m). rewrite Hsel.
  now apply (evolves_keeps _ _ _ _ Hev).
Qed.

Lemma same_state_logger lvl ev w : same_state (logger lvl ev w) w.
Proof. now split. Qed.

Lemma same_state_at_line_57 req w : same_state (at_line_57 req w) w.
Proof.
  unfold same_state.
  now rewrite at_line_57_loaded_models, at_line_57_load_calls, at_line_57_fs.
Qed.

Lemma same_state_trans w1 w2 w3 :
  same_state w1 w2 → same_state w2 w3 → same_state w1 w3.
Proof.
  unfold same_state. intros (? & ? & ?) (? & ? & ?). repeat split; congruence.
Qed.

Lemma same_state_sym w1 w2 : same_state w1 w2 → same_state w2 w1.
Proof. unfold same_state. intros (? & ? & ?). repeat split; congruence. Qed.

Lemma load_whisper_model_same model_name w w' :
  same_state w w' →
  (load_whisper_model model_name w).1 = (load_whisper_model model_name w').1 ∧
  same_state (load_whisper_model model_name w).2 (load_whisper_model model_name w').2.
Proof.
  intros (Hm & Hc & Hf). unfold load_whisper_model, call_load_model.
  rewrite Hm. destruct (loaded_models w' !! model_name) as [m|]; [now split|].
  cbn. rewrite Hc.
  destruct (whisper_load_model _ _) as [e|m]; cbn;
    (split; [done|]); unfold same_state; cbn; now rewrite Hm, Hc, Hf.
Qed.

Lemma try_statement_same audio_file model actual w w' :
  same_state w w' →
  (try_statement audio_file model actual w).1 =
    (try_statement audio_file model actual w').1 ∧
  same_state (try_statement audio_file model actual w).2
             (try_statement audio_file model actual w').2.
Proof.
  intros (Hm & Hc & Hf).
  unfold try_statement, try_suite, except_clause, finally_clause.
  destruct (splitext (filename audio_file)) as [root suffix].
  rewrite Hf. destruct (NamedTemporaryFile _ _) as [e|path];
    [cbn; split; [done|]; unfold same_state; cbn; now rewrite Hm, Hc, Hf|].
  destruct (FileStorage_save _ _) as [e|];
    [destruct (temp_audio_close _) as [e'|];
     (cbn; split; [done|]; unfold same_state; cbn; now rewrite Hm, Hc)|].
  destruct (temp_audio_close _) as [e'|];
    [|destruct (model_transcribe _ _) as [e|text]]; cbn;
    destruct (bool_decide (path ≠ "") && bool_decide _);
    try destruct (os_remove path); cbn;
    (split; [done|]); unfold same_state; cbn; now rewrite Hm, Hc.
Qed.

Lemma transcribe_audio_same req req' w w' :
  same_state w w' →
  files req = files req' →
  selected_model req = selected_model req' →
  (transcribe_audio req w).1 = (transcribe_audio req' w').1 ∧
  same_state (transcribe_audio req w).2 (transcribe_audio req' w').2.
Proof.
  intros Hs Hfiles Hsel. rewrite !transcribe_audio_line_57.
  rewrite <- Hsel, <- Hfiles.
  assert (Hs57 : same_state (at_line_57 req w) (at_line_57 req' w')).
  { eapply same_state_trans; [apply same_state_at_line_57|].
    eapply same_state_trans; [exact Hs|]. apply same_state_sym, same_state_at_line_57. }
  destruct (load_whisper_model_same (selected_model req) _ _ Hs57) as [Hr Hw].
  destruct (load_whisper_model (selected_model req) (at_line_57 req w)) as [r w2].
  destruct (load_whisper_model (selected_model req) (at_line_57 req' w')) as [r' w2'].
  cbn in Hr, Hw. subst r'.
  destruct r as [model|]; [|now split].
  destruct (files req !! "audio_file") as [audio_file|].
  - case_decide.
    + split; [done|]. cbn.
      eapply same_state_trans; [apply same_state_logger|].
      eapply same_state_trans; [exact Hw|]. apply same_state_sym, same_state_logger.
    + now apply try_statement_same.
  - split; [done|]. cbn.
    eapply same_state_trans; [apply same_state_logger|].
    eapply same_state_trans; [exact Hw|]. apply same_state_sym, same_state_logger.
Qed.

(** X9.  A request naming a model that is not allowed is served as one
    that names the default or names none: same response, same dict, same
    engine calls, same disk; only the log tells them apart. *)
Theorem fallback_same_as_default req req' w x :
  form req !! "model_name" = Some x →
  x ∉ ALLOWED_MODELS →
  form req' !! "model_name" = None ∨
  form req' !! "model_name" = Some DEFAULT_MODEL →
  files req' = files req →
  (transcribe_audio req w).1 = (transcribe_audio req' w).1 ∧
  same_state (transcribe_audio req w).2 (transcribe_audio req' w).2.
Proof.
  intros Hx Hbad Hdef Hfiles.
  apply transcribe_audio_same; [now split|done|].
  unfold selected_model, requested_model_name. rewrite Hx. cbn.
  rewrite bool_decide_eq_true_2 by done.
  destruct Hdef as [-> | ->]; cbn; now case_bool_decide.
Qed.

End Lifetime.

(** ** The lock, for callers of any names *)

Section Lock.
Context `{Whisper}.

(** The three kinds of statement: taking the lock, a statement inside the
    block, leaving the block. *)
Lemma thread_step_kinds i s s' :
  thread_step i s = Some s' →
  ∃ t pc',
    threads s !! i = Some t ∧ threads s' = at_pc i pc' s ∧
    ((th_pc t = AtEntry ∧ model_lock s = None ∧
      model_lock s' = Some i ∧ pc' = AtCheck) ∨
     (critical (th_pc t) = true ∧ critical pc' = true ∧
      model_lock s' = model_lock s) ∨
     (∃ r, th_pc t = AtExit r ∧ pc' = Returned r ∧ model_lock s' = None)).
Proof.
  unfold thread_step. destruct (threads s !! i) as [t|] eqn:Hi; [|discriminate].
  cbn. intros Hstep. exists t.
  destruct (th_pc t) as [| | |m|e|r|r] eqn:Hpc.
  - destruct (model_lock s) eqn:Hl; [discriminate|]. injection Hstep as <-.
    exists AtCheck. cbn. split; [done|]. split; [done|]. left. done.
  - destruct (loaded_models _ !! _) as [m|]; injection Hstep as <-;
      eexists; (split; [done|]); (split; [reflexivity|]); right; left; done.
  - unfold call_load_model in Hstep.
    destruct (whisper_load_model _ _) as [e|m]; injection Hstep as <-;
      eexists; (split; [done|]); (split; [reflexivity|]); right; left; done.
  - injection Hstep as <-.
    eexists; (split; [done|]); (split; [reflexivity|]); right; left; done.
  - injection Hstep as <-.
    eexists; (split; [done|]); (split; [reflexivity|]); right; left; done.
  - injection Hstep as <-.
    eexists; (split; [done|]); (split; [reflexivity|]); right; right; eauto.
  - discriminate.
Qed.

Lemma lock_inv_start names w : lock_inv (start names w).
Proof.
  split.
  - intros i t Hi. cbn in Hi. rewrite list_lookup_fmap in Hi.
    destruct (names !! i); [|discriminate]. injection Hi as <-. discriminate.
  - discriminate.
Qed.

Lemma lock_inv_step i s s' :
  lock_inv s → thread_step i s = Some s' → lock_inv s'.
Proof.
  intros [Hmutex Howner] Hstep.
  destruct (thread_step_kinds _ _ _ Hstep)
    as (t & pc' & Hi & Hth & [(Hpc & Hfree & Hl' & ->)|[(Hc & Hc' & Hl')|(r & Hpc & -> & Hl')]]).
  - split.
    + intros j t' Hj Hcrit. rewrite Hth in Hj. rewrite Hl'.
      destruct (lookup_at_pc _ _ _ _ _ _ Hi Hj) as [[-> ->]|[Hne Hj']]; [done|].
      specialize (Hmutex _ _ Hj' Hcrit). congruence.
    + intros j Hj. rewrite Hl' in Hj. injection Hj as <-. rewrite Hth.
      eexists. split; [apply (lookup_at_pc_eq _ _ _ _ Hi)|reflexivity].
  - pose proof (Hmutex _ _ Hi Hc) as Hlock. split.
    + intros j t' Hj Hcrit. rewrite Hth in Hj. rewrite Hl', Hlock.
      destruct (lookup_at_pc _ _ _ _ _ _ Hi Hj) as [[-> ->]|[Hne Hj']]; [done|].
      specialize (Hmutex _ _ Hj' Hcrit). congruence.
    + intros j Hj. rewrite Hl', Hlock in Hj. injection Hj as <-. rewrite Hth.
      eexists. split; [apply (lookup_at_pc_eq _ _ _ _ Hi)|exact Hc'].
  - assert (Hlock : model_lock s = Some i)
      by (apply (Hmutex _ _ Hi); now rewrite Hpc).
    split.
    + intros j t' Hj Hcrit. rewrite Hth in Hj.
      destruct (lookup_at_pc _ _ _ _ _ _ Hi Hj) as [[-> ->]|[Hne Hj']]; [discriminate|].
      specialize (Hmutex _ _ Hj' Hcrit). congruence.
    + intros j Hj. rewrite Hl' in Hj. discriminate.
Qed.

Lemma lock_inv_exec sched s : lock_inv s → lock_inv (exec sched s).
Proof.
  revert s. induction sched as [|i sched IH]; intros s Hinv; [done|].
  rewrite exec_cons. apply IH. unfold tick.
  destruct (thread_step i s) as [s'|] eqn:Hstep; [|done].
  now apply (lock_inv_step i s).
Qed.

(** A thread that is not the lock holder and has not returned waits. *)
Lemma blocked_by_lock s i j :
  lock_inv s → model_lock s = Some i → j ≠ i → thread_step j s = None.
Proof.
  intros [Hmutex _] Hl Hne. unfold thread_step.
  destruct (threads s !! j) as [t|] eqn:Hj; [|done]. cbn.
  destruct (th_pc t) as [| | |m|e|r|r] eqn:Hpc; try done;
    try (pose proof (Hmutex j t Hj) as Hm; rewrite Hpc in Hm;
         specialize (Hm eq_refl); congruence).
  now rewrite Hl.
Qed.

Lemma lock_progress s :
  lock_inv s → all_returned s ∨ ∃ i, is_Some (thread_step i s).
Proof.
  intros [Hmutex Howner]. destruct (model_lock s) as [i|] eqn:Hl.
  - right. exists i. destruct (Howner i eq_refl) as (t & Hi & Hcrit).
    now apply (critical_can_step i s t).
  - destruct (returned_or_not (threads s)) as [Hall|(i & t & Hi & Hn)]; [now left|].
    right. exists i. destruct (th_pc t) as [| | | | | |r] eqn:Hpc;
      try (pose proof (Hmutex i t Hi) as Hm; rewrite Hpc in Hm;
           specialize (Hm eq_refl); congruence).
    + unfold thread_step. rewrite Hi. cbn. rewrite Hpc, Hl. eexists; reflexivity.
    + now destruct (Hn r).
Qed.

Lemma remaining_start names w : remaining (start names w) = 5 * length names.
Proof.
  unfold remaining, start. cbn [threads].
  rewrite (sum_list_with_all steps_left _ 5), length_fmap; [done|].
  apply Forall_fmap, Forall_true. reflexivity.
Qed.

(** X12.  One lock for all names: whatever names the callers ask for and
    however they are scheduled, a thread inside the [with] block holds the
    lock, and while a thread holds it no other thread can run a statement,
    also one that asks for another name. *)
Theorem one_lock_for_all_names names w sched :
  let s := exec sched (start names w) in
  (∀ i t, threads s !! i = Some t → critical (th_pc t) = true →
          model_lock s = Some i) ∧
  (∀ i j, model_lock s = Some i → j ≠ i → thread_step j s = None).
Proof.
  intros s.
  assert (Hinv : lock_inv s) by apply lock_inv_exec, lock_inv_start.
  split; [apply Hinv|]. intros i j. now apply blocked_by_lock.
Qed.

(** X13.  Callers of any names always get through: in every state some
    thread can run unless all calls have returned, all of it takes at most
    five statements per caller, and when all have returned the lock is
    free. *)
Theorem callers_always_return names w sched :
  let s := exec sched (start names w) in
  (all_returned s ∨ ∃ i, is_Some (thread_step i s)) ∧
  moves sched (start names w) + remaining s ≤ 5 * length names ∧
  (all_returned s → model_lock s = None).
Proof.
  intros s.
  assert (Hinv : lock_inv s) by apply lock_inv_exec, lock_inv_start.
  split; [now apply lock_progress|]. split.
  - rewrite <- (remaining_start names w). apply moves_remaining.
  - intros Hall. destruct (model_lock s) as [i|] eqn:Hl; [|done].
    destruct (proj2 Hinv i Hl) as (t & Hi & Hcrit).
    destruct (proj1 (Forall_lookup _ _) Hall i t Hi) as [r Hr].
    rewrite Hr in Hcrit. discriminate.
Qed.

(** X14.  First-time callers of one name, at any moment of any schedule
    and whatever the engine does: every instance a caller has is the one the
    dict holds, so no two callers have different instances; the engine was
    called once per failed attempt plus at most once with success, and the
    failed attempts are the first ones. *)
Theorem one_instance_for_all_callers n model_name w sched :
  loaded_models w !! model_name = None →
  let s := exec sched (spawn n model_name w) in
  (∀ i t m, threads s !! i = Some t →
            result_of (th_pc t) = Some (Some m) →
            loaded_models (world s) !! model_name = Some m) ∧
  (∀ i j ti tj mi mj,
     threads s !! i = Some ti → result_of (th_pc ti) = Some (Some mi) →
     threads s !! j = Some tj → result_of (th_pc tj) = Some (Some mj) →
     mi = mj) ∧
  load_calls (world s) =
    load_calls w ++ replicate (failures s + successes model_name s) model_name ∧
  successes model_name s ≤ 1 ∧
  (∀ j, j < failures s →
        ∃ e, whisper_load_model model_name (length (load_calls w) + j) = inl e).
Proof.
  intros Hmiss s.
  assert (Hinv : registry_inv model_name w s)
    by (apply exec_inv, registry_inv_spawn, Hmiss).
  split; [apply (inv_results _ _ _ Hinv)|]. split.
  - intros i j ti tj mi mj Hi Hri Hj Hrj.
    pose proof (inv_results _ _ _ Hinv _ _ _ Hi Hri).
    pose proof (inv_results _ _ _ Hinv _ _ _ Hj Hrj). congruence.
  - split; [apply (inv_calls _ _ _ Hinv)|]. split; [|apply (inv_failed _ _ _ Hinv)].
    unfold successes. repeat case_match; lia.
Qed.

End Lock.

(** ** The suffix of the temporary file *)

Lemma substring_all (p : string) : String.substring 0 (String.length p) p = p.
Proof. induction p as [|a p IH]; [reflexivity|]. cbn. now rewrite IH. Qed.

Lemma substring_split (p : string) (d : nat) :
  String.substring 0 d p +:+ String.substring d (String.length p - d) p = p.
Proof.
  revert d. induction p as [|a p IH]; intros [|d]; cbn; try reflexivity.
  - change (String a (String.substring 0 (String.length p) p) = String a p).
    now rewrite substring_all.
  - change (String a (String.substring 0 d p +:+
                      String.substring d (String.length p - d) p) = String a p).
    now rewrite IH.
Qed.

Lemma skip_leading_dots_cases p filenameIndex dotIndex todo :
  skip_leading_dots p filenameIndex dotIndex todo = (p, "") ∨
  skip_leading_dots p filenameIndex dotIndex todo =
    (String.substring 0 dotIndex p,
     String.substring dotIndex (String.length p - dotIndex) p).
Proof.
  revert filenameIndex. induction todo as [|todo IH]; intros f; cbn; [now left|].
  destruct (String.get f p) as [c|]; [|now right].
  destruct (Ascii.eqb_spec c "."%char) as [->|Hne].
  - apply IH.
  - right. destruct c as [[] [] [] [] [] [] [] []]; try reflexivity. now destruct Hne.
Qed.

Lemma splitext_cases p :
  splitext p = (p, "") ∨
  ((rfind "/" p < rfind "." p)%Z ∧
   splitext p =
     (String.substring 0 (Z.to_nat (rfind "." p)) p,
      String.substring (Z.to_nat (rfind "." p))
        (String.length p - Z.to_nat (rfind "." p)) p)).
Proof.
  unfold splitext. destruct (Z.ltb_spec (rfind "/" p) (rfind "." p)) as [Hlt|Hge];
    [|now left].
  destruct (skip_leading_dots_cases p (Z.to_nat (rfind "/" p + 1))
              (Z.to_nat (rfind "." p))
              (Z.to_nat (rfind "." p) - Z.to_nat (rfind "/" p + 1))) as [-> | ->];
    [now left|now right].
Qed.

(** X15.  [os.path.splitext] cuts a path in two: root and extension put
    together give the path back. *)
Theorem splitext_concat p : (splitext p).1 +:+ (splitext p).2 = p.
Proof.
  destruct (splitext_cases p) as [-> | [_ ->]]; cbn [fst snd].
  - apply string_app_nil_r.
  - apply substring_split.
Qed.

(** [rfind]: where it points there is the character, and there is none after. *)
Lemma rfind_from_spec c p i :
  (0 ≤ i)%Z →
  (rfind_from c p i = -1 ∨
   (i ≤ rfind_from c p i)%Z ∧
   String.get (Z.to_nat (rfind_from c p i - i)) p = Some c)%Z ∧
  ∀ k : nat, (rfind_from c p i < i + Z.of_nat k)%Z → String.get k p ≠ Some c.
Proof.
  revert i. induction p as [|a p IH]; intros i Hi.
  - cbn. split; [now left|]. intros k _. now destruct k.
  - cbn [rfind_from]. destruct (IH (i + 1)%Z ltac:(lia)) as [Hat Hafter].
    destruct (Z.leb_spec 0 (rfind_from c p (i + 1))) as [Hpos|Hneg].
    + destruct Hat as [Hat|[Hle Hget]]; [lia|]. split.
      * right. split; [lia|].
        replace (Z.to_nat (rfind_from c p (i + 1) - i))
          with (S (Z.to_nat (rfind_from c p (i + 1) - (i + 1)))) by lia.
        exact Hget.
      * intros [|k] Hk; [lia|]. cbn. apply Hafter. lia.
    + destruct (Ascii.eqb_spec a c) as [->|Hne].
      * split.
        -- right. split; [lia|]. now rewrite Z.sub_diag.
        -- intros [|k] Hk; [lia|]. cbn. apply Hafter. lia.
      * split; [now left|].
        intros [|k] Hk; [cbn; congruence|]. cbn. apply Hafter. lia.
Qed.

Lemma substring_at c p d :
  String.get d p = Some c →
  ∃ rest, String.substring d (String.length p - d) p = String c rest.
Proof.
  revert d. induction p as [|a p IH]; intros [|d] Hget; try discriminate.
  - cbn in Hget. injection Hget as ->. cbn. eauto.
  - cbn in Hget. cbn. now apply IH.
Qed.

(** The extension is empty or begins with the dot, and has no [/] in it. *)
Lemma splitext_extension p :
  ((splitext p).2 = "" ∨ ∃ rest, (splitext p).2 = String "." rest) ∧
  ∀ k, String.get k (splitext p).2 ≠ Some "/"%char.
Proof.
  destruct (splitext_cases p) as [-> | [Hlt ->]]; cbn [fst snd].
  - split; [now left|]. intros k. now destruct k.
  - destruct (rfind_from_spec "." p 0 ltac:(lia)) as [[Hno|[Hle Hget]] _].
    { pose proof (rfind_from_spec "/" p 0 ltac:(lia)) as [[Hs|[Hs _]] _];
        unfold rfind in Hlt; lia. }
    destruct (rfind_from_spec "/" p 0 ltac:(lia)) as [_ Hafter].
    fold (rfind "." p) in Hle, Hget. fold (rfind "/" p) in Hafter.
    rewrite Z.sub_0_r in Hget. split.
    + right. now apply substring_at.
    + intros k.
      destruct (Nat.lt_ge_cases k (String.length p - Z.to_nat (rfind "." p)))
        as [Hk|Hk].
      * rewrite String.substring_correct1 by exact Hk. apply Hafter. lia.
      * now rewrite String.substring_correct2 by exact Hk.
Qed.

(** X16.  The suffix asked of [NamedTemporaryFile] on line 75 begins with
    a dot and has no [/] in it, whatever filename the client sent. *)
Theorem temp_suffix_shape audio_file :
  (∃ rest, temp_suffix audio_file = String "." rest) ∧
  ∀ k, String.get k (temp_suffix audio_file) ≠ Some "/"%char.
Proof.
  unfold temp_suffix.
  pose proof (splitext_extension (filename audio_file)) as [Hdot Hsep].
  destruct (splitext (filename audio_file)) as [root suffix]. cbn [snd] in *.
  case_decide as Hempty.
  - split; [eauto|]. intros [|[|[|[|k]]]]; cbn; congruence.
  - split; [|exact Hsep]. destruct Hdot as [?|?]; [done|done].
Qed.

(** ** Over several requests *)

Section Recovery.
Context `{Whisper} `{FileLayer}.

(** A request whose load raised changes the engine history only. *)
Lemma transcribe_audio_after_failure req w e :
  load_raises (selected_model req) w e →
  loaded_models (transcribe_audio req w).2 = loaded_models w ∧
  load_calls (transcribe_audio req w).2 = load_calls w ++ [selected_model req] ∧
  fs (transcribe_audio req w).2 = fs w.
Proof.
  intros Hko.
  assert (Hr : (load_whisper_model (selected_model req) w).1 = None)
    by (apply load_whisper_model_None; eauto).
  rewrite (transcribe_audio_unavailable _ _ Hr). cbn [snd].
  apply (load_raises_at_line_57 req) in Hko.
  rewrite (load_whisper_model_failed _ _ _ Hko).
  cbn [snd logger record_load_call loaded_models load_calls fs].
  now rewrite at_line_57_loaded_models, at_line_57_load_calls, at_line_57_fs.
Qed.

(** X10.  A 503 is not sticky: when the load of the selected model raised
    and the engine's next call for it gives an instance, the next request
    selecting that model is not answered 503 and the dict then holds the
    instance. *)
Theorem recovery_after_503 req req2 w e m :
  load_raises (selected_model req) w e →
  whisper_load_model (selected_model req) (length (load_calls w) + 1) = inr m →
  selected_model req2 = selected_model req →
  status (transcribe_audio req w).1 = 503 ∧
  status (transcribe_audio req2 (transcribe_audio req w).2).1 ≠ 503 ∧
  loaded_models (transcribe_audio req2 (transcribe_audio req w).2).2
    !! selected_model req = Some m.
Proof.
  intros Hko Hnext Hsel.
  destruct (transcribe_audio_after_failure req w e Hko) as (Hm & Hc & _).
  set (w1 := (transcribe_audio req w).2) in *.
  assert (Hok : load_returns (selected_model req2) w1 m).
  { rewrite Hsel. split.
    - rewrite Hm. apply Hko.
    - rewrite Hc, length_app. exact Hnext. }
  split; [|split].
  - assert (Hr : (load_whisper_model (selected_model req) w).1 = None)
      by (apply load_whisper_model_None; eauto).
    now rewrite (transcribe_audio_unavailable _ _ Hr).
  - apply (available_not_503 req2 w1 m).
    now rewrite (load_whisper_model_loaded _ _ _ Hok).
  - destruct (transcribe_audio_registry req2 w1) as (-> & _ & _).
    apply (load_returns_at_line_57 req2) in Hok.
    rewrite (load_whisper_model_loaded _ _ _ Hok).
    cbn [snd store_model loaded_models]. rewrite Hsel.
    apply lookup_insert_eq.
Qed.

(** X6.  Whatever the process does, an entry of the dict stays, with the
    same instance (nothing is evicted or replaced), and the history of
    engine calls only grows at its end. *)
Theorem registry_only_grows w w' :
  evolves w w' →
  (∀ k m, loaded_models w !! k = Some m → loaded_models w' !! k = Some m) ∧
  load_calls w `prefix_of` load_calls w'.
Proof.
  intros Hev. split.
  - intros k m. now apply evolves_keeps.
  - now apply evolves_load_calls.
Qed.


End Recovery.

Lemma successful_transcription_is_200_witness :
  (transcribe_audio (H := healthy_engine) (H0 := good_disk)
     (request_with (Some "tiny") (Some clip)) (initial_world ∅)).1 =
    mkResponse 200 {[ "text" := "hello world"; "model_used" := "tiny" ]}.
Proof.
  apply (successful_transcription_is_200 (H := healthy_engine) (H0 := good_disk)
           (request_with (Some "tiny") (Some clip)) (initial_world ∅)
           (ModelRef 0) clip "/tmp/tmpk3v9.wav" "hello world");
    try reflexivity.
  discriminate.
Defined.

Lemma temp_file_removed_on_request_witness :
  "/tmp/tmpk3v9.wav" ∉
    fs (transcribe_audio (H := deaf_engine) (H0 := good_disk)
          (request_with (Some "tiny") (Some clip)) (initial_world ∅)).2.
Proof.
  apply (temp_file_removed_on_request (H := deaf_engine) (H0 := good_disk)
           (request_with (Some "tiny") (Some clip)) (initial_world ∅)
           (ModelRef 0) clip "/tmp/tmpk3v9.wav");
    try reflexivity; discriminate.
Defined.

Lemma response_independent_of_removal_witness :
  (transcribe_audio (H := healthy_engine) (H0 := good_disk)
     (request_with (Some "tiny") (Some clip)) (initial_world ∅)).1 =
  (transcribe_audio (H := healthy_engine) (H0 := sticky_disk)
     (request_with (Some "tiny") (Some clip)) (initial_world ∅)).1.
Proof.
  apply (response_independent_of_removal healthy_engine good_disk sticky_disk);
    reflexivity.
Defined.

Lemma no_file_without_valid_upload_witness :
  fs (transcribe_audio (H := healthy_engine) (H0 := good_disk)
        (request_with (Some "tiny") None) (initial_world ∅)).2 = ∅.
Proof.
  apply (no_file_without_valid_upload (H := healthy_engine) (H0 := good_disk)
           (request_with (Some "tiny") None) (initial_world ∅)).
  right. reflexivity.
Defined.

Lemma registry_only_grows_witness :
  loaded_models
    (transcribe_audio (H := healthy_engine) (H0 := good_disk)
       (request_with (Some "base") (Some clip))
       (load_whisper_model (H := healthy_engine) "tiny" (initial_world ∅)).2).2
    !! "tiny" = Some (ModelRef 0).
Proof.
  apply (proj1 (registry_only_grows (H := healthy_engine) (H0 := good_disk)
                  (load_whisper_model (H := healthy_engine) "tiny" (initial_world ∅)).2
                  _ (evolves_request _ _ _ (evolves_refl _)))).
  reflexivity.
Defined.

Lemma cache_within_allow_list_witness :
  size (loaded_models
          (transcribe_audio (H := healthy_engine) (H0 := good_disk)
             (request_with (Some "whisper-9000") (Some clip)) (initial_world ∅)).2)
    ≤ 12.
Proof.
  apply (cache_within_allow_list (H := healthy_engine) (H0 := good_disk)).
  apply served_request, served_init.
Defined.

Lemma loaded_model_stays_available_witness :
  load_calls
    (transcribe_audio (H := healthy_engine) (H0 := good_disk)
       (request_with (Some "tiny") None)
       (transcribe_audio (H := healthy_engine) (H0 := good_disk)
          (request_with (Some "tiny") (Some clip)) (initial_world ∅)).2).2 =
  ["tiny"].
Proof.
  apply (loaded_model_stays_available (H := healthy_engine) (H0 := good_disk)
           (request_with (Some "tiny") (Some clip)) (request_with (Some "tiny") None)
           (initial_world ∅)).
  - discriminate.
  - apply evolves_refl.
  - reflexivity.
Defined.

Lemma fallback_same_as_default_witness :
  (transcribe_audio (H := healthy_engine) (H0 := good_disk)
     (request_with (Some "whisper-9000") (Some clip)) (initial_world ∅)).1 =
  (transcribe_audio (H := healthy_engine) (H0 := good_disk)
     (request_with None (Some clip)) (initial_world ∅)).1.
Proof.
  apply (fallback_same_as_default (H := healthy_engine) (H0 := good_disk)
           (request_with (Some "whisper-9000") (Some clip))
           (request_with None (Some clip)) (initial_world ∅) "whisper-9000").
  - reflexivity.
  - vm_compute. discriminate.
  - left. reflexivity.
  - reflexivity.
Defined.

Lemma recovery_after_503_witness :
  status (transcribe_audio (H := flaky_engine) (H0 := good_disk)
            (request_with None (Some clip)) (initial_world ∅)).1 = 503 ∧
  status (transcribe_audio (H := flaky_engine) (H0 := good_disk)
            (request_with (Some "base") (Some clip))
            (transcribe_audio (H := flaky_engine) (H0 := good_disk)
               (request_with None (Some clip)) (initial_world ∅)).2).1 ≠ 503.
Proof.
  destruct (recovery_after_503 (H := flaky_engine) (H0 := good_disk)
              (request_with None (Some clip)) (request_with (Some "base") (Some clip))
              (initial_world ∅) (Exception "download interrupted") (ModelRef 1))
    as (H503 & Hnext & _).
  - split; reflexivity.
  - reflexivity.
  - reflexivity.
  - split; [exact H503|exact Hnext].
Defined.


Lemma one_lock_for_all_names_witness :
  thread_step (H := healthy_engine) 1
    (exec (H := healthy_engine) [0; 0] (start ["tiny"; "base"] (initial_world ∅)))
  = None.
Proof.
  apply (proj2 (one_lock_for_all_names (H := healthy_engine) ["tiny"; "base"]
                  (initial_world ∅) [0; 0]) 0 1).
  - reflexivity.
  - lia.
Defined.

Lemma callers_always_return_witness :
  model_lock
    (exec (H := healthy_engine) [0; 1; 0; 0; 0; 0; 1; 1; 1; 1; 1]
       (start ["tiny"; "base"] (initial_world ∅))) = None.
Proof.
  apply (callers_always_return (H := healthy_engine) ["tiny"; "base"]
           (initial_world ∅) [0; 1; 0; 0; 0; 0; 1; 1; 1; 1; 1]).
  unfold all_returned. vm_compute.
  repeat (constructor; [eexists; reflexivity|]). constructor.
Defined.

Lemma one_instance_for_all_callers_witness :
  load_calls
    (world (exec (H := flaky_engine) [0; 1; 0; 0; 0; 0; 1; 1; 1; 1; 1]
              (spawn 2 "base" (initial_world ∅)))) =
  ["base"; "base"].
Proof.
  apply (one_instance_for_all_callers (H := flaky_engine) 2 "base" (initial_world ∅)
           [0; 1; 0; 0; 0; 0; 1; 1; 1; 1; 1]).
  reflexivity.
Defined.

(** The flush at the close of the temporary file raises after the write
    returned: 500 with the text of that exception, lines 79 and 81 log
    nothing, and the file is removed, [temp_audio_path] being set. *)
Example close_failure_is_500_and_cleans_up :
  let served := (transcribe_audio (H := healthy_engine) (H0 := late_full_disk)
                   (request_with (Some "tiny") (Some clip)) (initial_world ∅)) in
  served.1 =
    mkResponse 500
      {[ "error" :=
           "An internal error occurred during transcription: [Errno 28] No space left on device" ]} ∧
  log (served.2) =
    [(INFO, Received "tiny"); (INFO, AttemptUse "tiny");
     (INFO, AttemptLoad "tiny"); (INFO, LoadedOk "tiny");
     (ERROR, TranscriptionError (Exception "[Errno 28] No space left on device"));
     (INFO, RemovedTemp "/tmp/tmpk3v9.wav")] ∧
  fs (served.2) = ∅.
Proof. cbv zeta. repeat split; vm_compute; reflexivity. Qed.

(** The client's stream breaks while the upload is written and the close is
    fine: 500 with the text of the write's exception, and the file stays. *)
Example broken_upload_leaves_file :
  let served := (transcribe_audio (H := healthy_engine) (H0 := broken_upload_disk)
                   (request_with (Some "tiny") (Some clip)) (initial_world ∅)) in
  served.1 =
    mkResponse 500
      {[ "error" :=
           "An internal error occurred during transcription: stream ended unexpectedly" ]} ∧
  "/tmp/tmpk3v9.wav" ∈ fs (served.2).
Proof. cbv zeta. repeat split; vm_compute; reflexivity. Qed.
